(** * The SlideRule widgets demo notebook (examples/api_widgets_demo.ipynb)

    The notebook is a sequence of code cells.  Every cell is a straight
    line of calls into external collaborators (the [icesat2] REST client,
    the [ipysliderule] widget and map classes, [matplotlib] / [cartopy],
    and the [io] file helper), with one [for] loop over the drawn regions
    in the request cell and one in the plotting cell.

    The embedding keeps that shape:
    - Python values that travel in the parameter record are a small
      JSON-like datatype ([value]);
    - the interpreter's global names that survive from one cell to a later
      one are a record of optional bindings ([globals]);
    - every call that leaves the notebook is an event of the typed
      signature [ext], answered by an environment that may also raise;
    - a cell is a program in the state-and-exception monad [M] over the
      tree of such calls, written statement by statement after the source. *)

From Stdlib Require Import QArith Qround.
From stdpp Require Import gmap strings list fin_maps sorting.

Set Warnings "-register-all".
Open Scope string_scope.
Open Scope list_scope.

(** ** Python data *)

(** Scalars held by the widgets: [None], booleans, integers, floats (kept
    as exact rationals, the notebook does no arithmetic on them) and
    strings. *)
Inductive scalar : Type :=
| SNone
| SBool (b : bool)
| SInt (z : Z)
| SFloat (q : Q)
| SStr (s : string).

(** A value of the parameter record: a scalar, a list, or a nested
    mapping with string keys. *)
Inductive value : Type :=
| VScalar (s : scalar)
| VList (l : list value)
| VDict (d : gmap string value).

Definition is_scalar (v : value) : bool :=
  match v with VScalar _ => true | _ => false end.

(** One vertex of a region drawn on the leaflet map, and a region: the
    closed boundary of one polygon. *)
Record coord : Type := { lon : Q; lat : Q }.

Definition region : Type := list coord.

(** The region as it travels in the parameter record: a list of
    [{"lon": .., "lat": ..}] mappings. *)
Definition coord_value (c : coord) : value :=
  VDict (<["lon" := VScalar (SFloat (lon c))]>
         (<["lat" := VScalar (SFloat (lat c))]> ∅)).

Definition region_value (poly : region) : value :=
  VList (map coord_value poly).

(** Modelled from the spec: the result table is "a tabular dataset of
    geolocated points with an elevation attribute".  The GeoDataFrame class
    is not part of the notebook; a row keeps the point geometry and the
    [h_mean] column the notebook reads, and a table is its list of rows. *)
Record row : Type := { geom_x : Q; geom_y : Q; row_h_mean : Q }.

Definition table : Type := list row.

(** [gdf.geometry.x], [gdf.geometry.y] and [gdf.h_mean]: the columns. *)
Definition geometry_x (gdf : table) : list Q := map geom_x gdf.
Definition geometry_y (gdf : table) : list Q := map geom_y gdf.
Definition h_mean (gdf : table) : list Q := map row_h_mean gdf.

(** [gdf.append(other)]: the rows of [gdf] followed by those of [other],
    as a new table. *)
Definition append (gdf other : table) : table := (gdf ++ other).

(** Modelled from the spec: the file helper supports "at least two tabular
    storage formats"; the notebook names them in its comments
    ("save to file in format (HDF5 or netCDF)").  The [format] property of
    the widgets class, which selects one, is not part of the notebook. *)
Inductive file_format : Type := HDF5 | netCDF.

#[global] Instance file_format_eq_dec : EqDecision file_format.
Proof. solve_decision. Defined.

(** Exceptions: the two the notebook's own statements can raise (an
    unbound name, a missing key or a subscript on a non-mapping), and
    whatever an external call raises, kept as its class and message. *)
Inductive exn : Type :=
| NameError (name : string)
| KeyError (key : string)
| TypeError (msg : string)
| Raised (cls msg : string).

(** Handles of objects created by the external libraries (the widgets
    object, the map, figures, axes, artists, coordinate systems). *)
Definition obj : Type := nat.

(** The attributes of the widgets object the notebook touches. *)
Module Widget.
Inductive t : Type :=
| asset | release | surface_type | length | step | confidence
| land_class | iteration | spread | count | window | sigma
| projection | filesaver | fileloader.

#[global] Instance eq_dec : EqDecision t.
Proof. solve_decision. Defined.
End Widget.

(** Arguments of plotting calls: literals, objects, columns of numbers and
    names of library constants such as [cartopy.feature.LAND]. *)
Inductive arg : Type :=
| AVal (v : value)
| AObj (o : obj)
| ACol (c : list Q)
| AName (n : string)
| ATuple (l : list arg).

(** What a cell sends to the output area. *)
Inductive displayed : Type :=
| DObj (o : obj)
| DMap (m : obj)
| DWidget (sr : obj) (w : Widget.t).

(** ** External calls

    One constructor per call (or attribute read on an external object)
    that occurs in the notebook; the index is the type of the answer. *)
Inductive ext : Type -> Type :=
| py_import (statement : string) : ext unit
| ipy_magic (line : string) : ext unit
| icesat2_init (url : string) (loglevel : Z) : ext unit
| ipysliderule_widgets : ext obj
| widgets_VBox (children : list displayed) : ext obj
| display (d : displayed) : ext unit
| widget_value (sr : obj) (w : Widget.t) : ext scalar
| widget_index (sr : obj) (w : Widget.t) : ext scalar
| widget_selection (sr : obj) (w : Widget.t) : ext (list scalar)
| widgets_file (sr : obj) : ext string
| widgets_format (sr : obj) : ext file_format
| ipysliderule_leaflet (projection : scalar) : ext obj
| leaflet_regions (m : obj) : ext (list region)
| icesat2_emptyframe : ext table
| icesat2_atl06p (parm : gmap string value) (asset version : scalar) : ext table
| icesat2_get_version : ext value
| cartopy_crs (name : string) : ext obj
| np_arange (start stop step : Q) : ext (list Q)
| plt_subplots (num nrows ncols : Z) (figsize : Z * Z) (projection : obj) : ext (obj * obj)
| mpl_call (target : obj) (method : string) (args : list arg) (kwargs : list (string * arg)) : ext obj
| plt_show : ext unit
| io_from_region (poly : region) : ext (list Q * list Q)
| io_to_file (gdf : table) (file : string) (format : file_format) (driver : string)
             (parameters : gmap string value) (regions : list region) (verbose : bool) : ext unit
| io_from_file (file : string) (format : file_format) (driver : string) : ext table.

(** The answer to a call: an exception or a result. *)
Abbreviation outcome T := (exn + T)%type.

(** A program: it returns, or makes a call and continues with the answer
    (the exception included, so that a handler would be visible). *)
Inductive prog (A : Type) : Type :=
| Ret (a : A)
| Call (T : Type) (c : ext T) (k : outcome T -> prog A).

Arguments Ret {A} a.
Arguments Call {A T} c k.

Fixpoint pbind {A B : Type} (p : prog A) (f : A -> prog B) : prog B :=
  match p with
  | Ret a => f a
  | Call c k => Call c (fun r => pbind (k r) f)
  end.

(** ** Interpreter state

    The global names bound by one cell and read by a later one.  The other
    names ([asset], [release], [poly], [f1], [ax1], [f2], [ax2], [sc],
    [lon], [lat], [cbar_ax], [cbar], [version]) are bound and read inside
    one cell only and are let-bound in the cell's program.  The module
    names bound by the import cell are not part of the state either: what
    is said of the names of a cell is said of these four. *)
Record globals : Type := {
  SRwidgets : option obj;
  m : option obj;
  gdf : option table;
  parms : option (gmap string value)
}.

Definition fresh : globals :=
  {| SRwidgets := None; m := None; gdf := None; parms := None |}.

Definition set_SRwidgets (o : obj) (g : globals) : globals :=
  {| SRwidgets := Some o; m := m g; gdf := gdf g; parms := parms g |}.
Definition set_m (o : obj) (g : globals) : globals :=
  {| SRwidgets := SRwidgets g; m := Some o; gdf := gdf g; parms := parms g |}.
Definition set_gdf (t : table) (g : globals) : globals :=
  {| SRwidgets := SRwidgets g; m := m g; gdf := Some t; parms := parms g |}.
Definition set_parms (d : gmap string value) (g : globals) : globals :=
  {| SRwidgets := SRwidgets g; m := m g; gdf := gdf g; parms := Some d |}.

(** ** The statement monad: global names, exceptions, external calls *)
Definition M (A : Type) : Type := globals -> prog (outcome A * globals).

Definition ret {A : Type} (a : A) : M A := fun g => Ret (inr a, g).

Definition raise {A : Type} (e : exn) : M A := fun g => Ret (inl e, g).

(** Sequencing: an exception of the first statement ends the cell. *)
Definition bind {A B : Type} (c : M A) (f : A -> M B) : M B :=
  fun g => pbind (c g) (fun '(r, g') =>
    match r with
    | inl e => Ret (inl e, g')
    | inr a => f a g'
    end).

(** A call: the answer, exception or result, is passed on as it is. *)
Definition call {T : Type} (c : ext T) : M T :=
  fun g => Call c (fun r => Ret (r, g)).

(** Reading a global name: [NameError] when it is not bound. *)
Definition load {A : Type} (name : string) (field : globals -> option A) : M A :=
  fun g => match field g with
           | Some a => Ret (inr a, g)
           | None => Ret (inl (NameError name), g)
           end.

Definition store (upd : globals -> globals) : M unit :=
  fun g => Ret (inr tt, upd g).

Declare Scope nb_scope.
Delimit Scope nb_scope with nb.
Notation "x <- c ;; k" := (bind c (fun x => k))
  (at level 100, c at next level, right associativity) : nb_scope.
Notation "c ;; k" := (bind c (fun _ => k))
  (at level 100, right associativity) : nb_scope.
Open Scope nb_scope.

(** [for x in xs: body]. *)
Fixpoint for_each {A : Type} (xs : list A) (body : A -> M unit) : M unit :=
  match xs with
  | [] => ret tt
  | x :: rest => body x ;; for_each rest body
  end.

(** Subscript [v[key]] on a value. *)
Definition getitem (v : value) (key : string) : M value :=
  match v with
  | VDict d => match d !! key with
               | Some x => ret x
               | None => raise (KeyError key)
               end
  | _ => raise (TypeError "object is not subscriptable")
  end.

(** ** The cells, in the order of the notebook *)

(** [SRwidgets.<w>.value], [SRwidgets.<w>.index], and the tuple held by a
    multiple selection. *)
Definition SRwidgets_value (w : Widget.t) : M scalar :=
  sr <- load "SRwidgets" SRwidgets ;; call (widget_value sr w).

Definition SRwidgets_index (w : Widget.t) : M scalar :=
  sr <- load "SRwidgets" SRwidgets ;; call (widget_index sr w).

Definition SRwidgets_selection (w : Widget.t) : M (list scalar) :=
  sr <- load "SRwidgets" SRwidgets ;; call (widget_selection sr w).

Definition SRwidgets_file : M string :=
  sr <- load "SRwidgets" SRwidgets ;; call (widgets_file sr).

Definition SRwidgets_format : M file_format :=
  sr <- load "SRwidgets" SRwidgets ;; call (widgets_format sr).

(** [m.regions]. *)
Definition m_regions : M (list region) :=
  mm <- load "m" m ;; call (leaflet_regions mm).

(** Literals in plotting calls. *)
Definition int (z : Z) : arg := AVal (VScalar (SInt z)).
Definition flt (q : Q) : arg := AVal (VScalar (SFloat q)).
Definition str (s : string) : arg := AVal (VScalar (SStr s)).
Definition boolean (b : bool) : arg := AVal (VScalar (SBool b)).

(** Load necessary packages. *)
Definition cell_imports : M unit :=
  call (py_import "from sliderule import icesat2, ipysliderule, io") ;;
  call (py_import "import logging") ;;
  call (py_import "import numpy as np") ;;
  call (py_import "import matplotlib.pyplot as plt") ;;
  call (py_import "import cartopy") ;;
  call (py_import "import ipywidgets as widgets") ;;
  call (ipy_magic "load_ext autoreload") ;;
  call (ipy_magic "autoreload 2").

(** [logging.WARNING]. *)
Definition logging_WARNING : Z := 30.

(** Set options for making science data processing requests. *)
Definition cell_options : M unit :=
  call (icesat2_init "icesat2sliderule.org" logging_WARNING) ;;
  sr <- call ipysliderule_widgets ;;
  store (set_SRwidgets sr) ;;
  sr <- load "SRwidgets" SRwidgets ;;
  box <- call (widgets_VBox (map (DWidget sr)
           [Widget.asset; Widget.release; Widget.surface_type; Widget.length;
            Widget.step; Widget.confidence; Widget.land_class; Widget.iteration;
            Widget.spread; Widget.count; Widget.window; Widget.sigma;
            Widget.projection])) ;;
  call (display (DObj box)).

(** Select regions of interest: the leaflet map. *)
Definition cell_map : M unit :=
  proj <- SRwidgets_value Widget.projection ;;
  mm <- call (ipysliderule_leaflet proj) ;;
  store (set_m mm) ;;
  mm <- load "m" m ;;
  call (display (DMap mm)).

(** The parameter record of one region, key by key as in the source. *)
Definition parms_record (poly : region)
    (srt len res cnf : scalar) (atl08_class : list scalar)
    (maxi ats cnt H_min_win sigma_r_max : scalar) : gmap string value :=
  <["sigma_r_max" := VScalar sigma_r_max]>
  (<["H_min_win" := VScalar H_min_win]>
  (<["cnt" := VScalar cnt]>
  (<["ats" := VScalar ats]>
  (<["maxi" := VScalar maxi]>
  (<["atl08_class" := VList (map VScalar atl08_class)]>
  (<["cnf" := VScalar cnf]>
  (<["res" := VScalar res]>
  (<["len" := VScalar len]>
  (<["srt" := VScalar srt]>
  (<["poly" := region_value poly]> ∅)))))))))).

(** The values are read from the widgets in the order of the keys. *)
Definition build_parms (poly : region) : M (gmap string value) :=
  srt <- SRwidgets_index Widget.surface_type ;;
  len <- SRwidgets_value Widget.length ;;
  res <- SRwidgets_value Widget.step ;;
  cnf <- SRwidgets_value Widget.confidence ;;
  atl08_class <- SRwidgets_selection Widget.land_class ;;
  maxi <- SRwidgets_value Widget.iteration ;;
  ats <- SRwidgets_value Widget.spread ;;
  cnt <- SRwidgets_value Widget.count ;;
  H_min_win <- SRwidgets_value Widget.window ;;
  sigma_r_max <- SRwidgets_value Widget.sigma ;;
  ret (parms_record poly srt len res cnf atl08_class maxi ats cnt H_min_win sigma_r_max).

(** The body of the request loop for one region. *)
Definition request_one (asset release : scalar) (poly : region) : M unit :=
  d <- build_parms poly ;;
  store (set_parms d) ;;
  frame <- load "gdf" gdf ;;
  d <- load "parms" parms ;;
  answer <- call (icesat2_atl06p d asset release) ;;
  store (set_gdf (append frame answer)).

(** Build and transmit requests to SlideRule. *)
Definition cell_requests : M unit :=
  asset <- SRwidgets_value Widget.asset ;;
  release <- SRwidgets_value Widget.release ;;
  empty <- call icesat2_emptyframe ;;
  store (set_gdf empty) ;;
  regions <- m_regions ;;
  for_each regions (request_one asset release).

(** [cartopy.crs.PlateCarree()] and [cartopy.crs.Geodetic()]. *)
Definition PlateCarree : M obj := call (cartopy_crs "PlateCarree").
Definition Geodetic : M obj := call (cartopy_crs "Geodetic").

(** [ax.add_feature(LAND, ...)], [ax.add_feature(LAKES)] and the frame
    styling, written twice in the source (once per axes). *)
Definition add_land_and_lakes (ax : obj) : M unit :=
  call (mpl_call ax "add_feature" [AName "cartopy.feature.LAND"]
          [("zorder", int 0); ("edgecolor", str "black")]) ;;
  call (mpl_call ax "add_feature" [AName "cartopy.feature.LAKES"] []) ;;
  ret tt.

Definition strong_frame (ax : obj) : M unit :=
  call (mpl_call ax "spines['geo'].set_linewidth" [flt 2.0] []) ;;
  call (mpl_call ax "spines['geo'].set_capstyle" [str "projecting"] []) ;;
  ret tt.

(** Figure 1: output map of resource location. *)
Definition plot_ground_tracks : M unit :=
  pc <- PlateCarree ;;
  fa <- call (plt_subplots 1 1 1 (10, 6)%Z pc) ;;
  let f1 := fst fa in
  let ax1 := snd fa in
  frame <- load "gdf" gdf ;;
  geod <- Geodetic ;;
  call (mpl_call ax1 "plot"
          [ACol (geometry_x frame); ACol (geometry_y frame); str "r."]
          [("ms", int 1); ("transform", AObj geod)]) ;;
  pc <- PlateCarree ;;
  call (mpl_call ax1 "set_extent"
          [ATuple [int (-180); int 180; int (-90); int 90]] [("crs", AObj pc)]) ;;
  add_land_and_lakes ax1 ;;
  xlocs <- call (np_arange (-180) 181 60) ;;
  ylocs <- call (np_arange (-90) 91 30) ;;
  call (mpl_call ax1 "gridlines" [] [("xlocs", ACol xlocs); ("ylocs", ACol ylocs)]) ;;
  call (mpl_call ax1 "set_title" [str "Ground Tracks"] []) ;;
  strong_frame ax1 ;;
  call (mpl_call f1 "subplots_adjust" []
          [("left", flt 0.02); ("right", flt 0.98);
           ("bottom", flt 0.05); ("top", flt 0.98)]) ;;
  ret tt.

(** The outline of one region on the second axes. *)
Definition outline (ax2 : obj) (poly : region) : M unit :=
  lonlat <- call (io_from_region poly) ;;
  pc <- PlateCarree ;;
  call (mpl_call ax2 "plot" [ACol (fst lonlat); ACol (snd lonlat); str "r"]
          [("lw", flt 1.5); ("transform", AObj pc)]) ;;
  ret tt.

(** Figure 2: output map of heights, with its colorbar. *)
Definition plot_heights : M unit :=
  pc <- PlateCarree ;;
  fa <- call (plt_subplots 2 1 1 (10, 6)%Z pc) ;;
  let f2 := fst fa in
  let ax2 := snd fa in
  frame <- load "gdf" gdf ;;
  pc <- PlateCarree ;;
  sc <- call (mpl_call ax2 "scatter"
          [ACol (geometry_x frame); ACol (geometry_y frame)]
          [("c", ACol (h_mean frame)); ("s", int 1); ("edgecolor", str "none");
           ("cmap", AName "plt.cm.viridis"); ("transform", AObj pc)]) ;;
  regions <- m_regions ;;
  for_each regions (outline ax2) ;;
  add_land_and_lakes ax2 ;;
  cbar_ax <- call (mpl_call f2 "add_axes"
          [AVal (VList [VScalar (SFloat 0.87); VScalar (SFloat 0.015);
                        VScalar (SFloat 0.0325); VScalar (SFloat 0.94)])] []) ;;
  cbar <- call (mpl_call f2 "colorbar" [AObj sc]
          [("cax", AObj cbar_ax); ("extend", str "both"); ("extendfrac", flt 0.0375);
           ("drawedges", boolean false); ("orientation", str "vertical")]) ;;
  call (mpl_call cbar "solids.set_rasterized" [boolean true] []) ;;
  call (mpl_call cbar "ax.set_ylabel" [str "Height above WGS84 Ellipsoid"]
          [("labelpad", int 10)]) ;;
  call (mpl_call cbar "ax.set_xlabel" [str "m"] [("rotation", int 0)]) ;;
  call (mpl_call cbar "ax.xaxis.set_label_coords" [flt 0.5; flt 1.05] []) ;;
  call (mpl_call cbar "ax.tick_params" []
          [("which", str "both"); ("width", int 1); ("direction", str "in")]) ;;
  strong_frame ax2 ;;
  call (mpl_call f2 "subplots_adjust" []
          [("left", flt 0.02); ("right", flt 0.86);
           ("bottom", flt 0.05); ("top", flt 0.98)]) ;;
  ret tt.

(** Create output plots. *)
Definition cell_plots : M unit :=
  plot_ground_tracks ;;
  plot_heights ;;
  call plt_show.

(** [display(SRwidgets.filesaver)]. *)
Definition cell_filesaver : M unit :=
  sr <- load "SRwidgets" SRwidgets ;;
  call (display (DWidget sr Widget.filesaver)).

(** [parms[key] = v]: the name is looked up after [v] was evaluated, and
    the mapping it is bound to is updated in place. *)
Definition parms_setitem (key : string) (v : value) : M unit :=
  d <- load "parms" parms ;;
  store (set_parms (<[key := v]> d)).

(** Save the table to a file. *)
Definition cell_save : M unit :=
  version <- call icesat2_get_version ;;
  client <- getitem version "icesat2" ;;
  v <- getitem client "version" ;;
  parms_setitem "version" v ;;
  client <- getitem version "icesat2" ;;
  c <- getitem client "commit" ;;
  parms_setitem "commit" c ;;
  frame <- load "gdf" gdf ;;
  file <- SRwidgets_file ;;
  format <- SRwidgets_format ;;
  d <- load "parms" parms ;;
  regions <- m_regions ;;
  call (io_to_file frame file format "pytables" d regions true).

(** [display(SRwidgets.fileloader)]. *)
Definition cell_fileloader : M unit :=
  sr <- load "SRwidgets" SRwidgets ;;
  call (display (DWidget sr Widget.fileloader)).

(** Read the table from a file. *)
Definition cell_load : M unit :=
  file <- SRwidgets_file ;;
  format <- SRwidgets_format ;;
  frame <- call (io_from_file file format "pytables") ;;
  store (set_gdf frame).

(** The code cells of the notebook. *)
Inductive cell : Type :=
| Imports | Options | RegionMap | Requests | Plots
| FileSaver | Save | FileLoader | Load.

#[global] Instance cell_eq_dec : EqDecision cell.
Proof. solve_decision. Defined.

Definition cell_body (c : cell) : M unit :=
  match c with
  | Imports => cell_imports
  | Options => cell_options
  | RegionMap => cell_map
  | Requests => cell_requests
  | Plots => cell_plots
  | FileSaver => cell_filesaver
  | Save => cell_save
  | FileLoader => cell_fileloader
  | Load => cell_load
  end.

Definition notebook : list cell :=
  [Imports; Options; RegionMap; Requests; Plots; FileSaver; Save; FileLoader; Load].

(** ** Running cells against an environment *)

(** One answered call. *)
Inductive entry : Type :=
| Entry (T : Type) (c : ext T) (r : outcome T).

Arguments Entry {T} c r.

(** Whether the call of an entry raised. *)
Definition raised (e : entry) : option exn :=
  match e with
  | Entry _ (inl x) => Some x
  | Entry _ (inr _) => None
  end.

Section Run.

(** The environment: everything outside the notebook (the kernel's
    libraries, the service, the user interface, the disk), as a state
    [World] and the answer it gives to each call. *)
Variable World : Type.
Variable handle : forall T : Type, ext T -> World -> outcome T * World.

Fixpoint run {A : Type} (p : prog A) (w : World) : list entry * A * World :=
  match p with
  | Ret a => ([], a, w)
  | Call c k =>
      let '(r, w1) := handle _ c w in
      let '(tr, a, w2) := run (k r) w1 in
      (Entry c r :: tr, a, w2)
  end.

(** What a session leaves behind: the calls made, the exception that
    stopped it (if any), the global names and the environment. *)
Record result : Type := {
  trace : list entry;
  failure : option exn;
  names : globals;
  world : World
}.

(** Executing one cell. *)
Definition exec (c : cell) (g : globals) (w : World) : result :=
  let '(tr, (r, g'), w') := run (cell_body c g) w in
  {| trace := tr;
     failure := match r with inl e => Some e | inr _ => None end;
     names := g';
     world := w' |}.

(** A session: the user executes a cell, or acts on the environment
    (sets a widget, draws a polygon, picks a file). *)
Inductive step : Type :=
| Exec (c : cell)
| User (act : World -> World).

(** Steps are run one after the other; a cell that raises stops the
    queue (the names and the environment stay as the cell left them). *)
Fixpoint session (steps : list step) (g : globals) (w : World) : result :=
  match steps with
  | [] => {| trace := []; failure := None; names := g; world := w |}
  | User act :: rest => session rest g (act w)
  | Exec c :: rest =>
      let r := exec c g w in
      match failure r with
      | Some _ => r
      | None =>
          let r' := session rest (names r) (world r) in
          {| trace := (trace r ++ trace r');
             failure := failure r';
             names := names r';
             world := world r' |}
      end
  end.

End Run.

Arguments run {World} handle {A} p w.
Arguments exec {World} handle c g w.
Arguments session {World} handle steps g w.
Arguments trace {World} r.
Arguments failure {World} r.
Arguments names {World} r.
Arguments world {World} r.
Arguments Exec {World} c.
Arguments User {World} act.

(** The whole notebook from top to bottom, the user acting on the
    environment before each cell. *)
Definition play {World : Type} (user : cell -> World -> World) : list (step World) :=
  flat_map (fun c => [User (user c); Exec c]) notebook.

(** ** A reference environment

    A concrete environment to run the notebook in: the widgets hold the
    values the user gave them, the map holds the drawn regions, the
    service answers by a fixed function, objects get fresh handles. *)
Module Env.

(** Modelled from the spec: the file helper "persists/reloads the table"
    in one of its storage formats.  The [io] module is not part of the
    notebook; a file keeps what [to_file] was given, and [from_file]
    gives the table back when asked for the same format and driver. *)
Record stored : Type := {
  stored_format : file_format;
  stored_driver : string;
  stored_table : table;
  stored_parameters : gmap string value;
  stored_regions : list region
}.

Record world : Type := {
  values : Widget.t -> scalar;
  indices : Widget.t -> scalar;
  selections : Widget.t -> list scalar;
  chosen_file : string;
  chosen_format : file_format;
  drawn : list region;
  service : gmap string value -> scalar -> scalar -> outcome table;
  service_version : value;
  disk : gmap string stored;
  next : obj
}.

Definition alloc (w : world) : world :=
  {| values := values w; indices := indices w; selections := selections w;
     chosen_file := chosen_file w; chosen_format := chosen_format w;
     drawn := drawn w; service := service w;
     service_version := service_version w; disk := disk w;
     next := S (next w) |}.

Definition write (file : string) (s : stored) (w : world) : world :=
  {| values := values w; indices := indices w; selections := selections w;
     chosen_file := chosen_file w; chosen_format := chosen_format w;
     drawn := drawn w; service := service w;
     service_version := service_version w; disk := <[file := s]> (disk w);
     next := next w |}.

Definition to_file (frame : table) (file : string) (format : file_format)
    (driver : string) (parameters : gmap string value) (regions : list region)
    (w : world) : outcome unit * world :=
  (inr tt,
   write file {| stored_format := format; stored_driver := driver;
                 stored_table := frame; stored_parameters := parameters;
                 stored_regions := regions |} w).

Definition from_file (file : string) (format : file_format) (driver : string)
    (w : world) : outcome table * world :=
  match disk w !! file with
  | None => (inl (Raised "FileNotFoundError" file), w)
  | Some s =>
      if decide (stored_format s = format ∧ stored_driver s = driver)
      then (inr (stored_table s), w)
      else (inl (Raised "ValueError" "format or driver mismatch"), w)
  end.

(** [np.arange(start, stop, step)] for a positive step. *)
Definition arange (start stop step : Q) : list Q :=
  map (fun i : nat => (start + inject_Z (Z.of_nat i) * step)%Q)
      (seq 0 (Z.to_nat (Qceiling ((stop - start) / step)))).

Definition handle (T : Type) (c : ext T) (w : world) : outcome T * world :=
  match c in ext T return outcome T * world with
  | py_import _ => (inr tt, w)
  | ipy_magic _ => (inr tt, w)
  | icesat2_init _ _ => (inr tt, w)
  | ipysliderule_widgets => (inr (next w), alloc w)
  | widgets_VBox _ => (inr (next w), alloc w)
  | display _ => (inr tt, w)
  | widget_value _ x => (inr (values w x), w)
  | widget_index _ x => (inr (indices w x), w)
  | widget_selection _ x => (inr (selections w x), w)
  | widgets_file _ => (inr (chosen_file w), w)
  | widgets_format _ => (inr (chosen_format w), w)
  | ipysliderule_leaflet _ => (inr (next w), alloc w)
  | leaflet_regions _ => (inr (drawn w), w)
  | icesat2_emptyframe => (inr [], w)
  | icesat2_atl06p parm a v => (service w parm a v, w)
  | icesat2_get_version => (inr (service_version w), w)
  | cartopy_crs _ => (inr (next w), alloc w)
  | np_arange a b s => (inr (arange a b s), w)
  | plt_subplots _ _ _ _ _ => (inr (next w, S (next w)), alloc (alloc w))
  | mpl_call _ _ _ _ => (inr (next w), alloc w)
  | plt_show => (inr tt, w)
  | io_from_region poly => (inr (map lon poly, map lat poly), w)
  | io_to_file frame file format driver parameters regions _ =>
      to_file frame file format driver parameters regions w
  | io_from_file file format driver => from_file file format driver w
  end.

(** A sample session: default widget values, one drawn triangle, a
    service that answers one point per vertex. *)
Definition sample_values (x : Widget.t) : scalar :=
  match x with
  | Widget.asset => SStr "nsidc-s3"
  | Widget.release => SStr "004"
  | Widget.length => SInt 40
  | Widget.step => SInt 20
  | Widget.confidence => SInt 4
  | Widget.iteration => SInt 1
  | Widget.spread => SFloat 20
  | Widget.count => SInt 10
  | Widget.window => SFloat 3
  | Widget.sigma => SFloat 5
  | Widget.projection => SStr "Global"
  | _ => SNone
  end.

Definition sample_service (parm : gmap string value) (a v : scalar) : outcome table :=
  match parm !! "poly" with
  | Some (VList l) =>
      inr (map (fun _ => {| geom_x := -108; geom_y := 39; row_h_mean := 1500 |}) l)
  | _ => inl (Raised "RuntimeError" "no polygon")
  end.

Definition triangle : region :=
  [ {| lon := -108; lat := 39 |}; {| lon := -107; lat := 39 |};
    {| lon := -107.5; lat := 40 |}; {| lon := -108; lat := 39 |} ].

Definition sample_version : value :=
  VDict (<["icesat2" :=
            VDict (<["version" := VScalar (SStr "v1.0.5")]>
                  (<["commit" := VScalar (SStr "abc123")]> ∅))]> ∅).

Definition sample (regions : list region) : world :=
  {| values := sample_values;
     indices := fun _ => SInt 3;
     selections := fun _ => [SStr "atl08_ground"];
     chosen_file := "ATL06-SR.h5";
     chosen_format := HDF5;
     drawn := regions;
     service := sample_service;
     service_version := sample_version;
     disk := ∅;
     next := 0 |}.

Definition idle (c : cell) (w : world) : world := w.

(** A service that answers one point for a region with vertices and
    refuses a region without any. *)
Definition picky (parm : gmap string value) (a v : scalar) : outcome table :=
  match parm !! "poly" with
  | Some (VList (_ :: _)) =>
      inr [ {| geom_x := -108; geom_y := 39; row_h_mean := 1500 |} ]
  | _ => inl (Raised "RuntimeError" "empty region")
  end.

(** The world [w] with another service and another version answer. *)
Definition serving (srv : gmap string value -> scalar -> scalar -> outcome table)
    (version : value) (w : world) : world :=
  {| values := values w; indices := indices w; selections := selections w;
     chosen_file := chosen_file w; chosen_format := chosen_format w;
     drawn := drawn w; service := srv;
     service_version := version; disk := disk w;
     next := next w |}.

(** A version answer without its ["commit"] field. *)
Definition uncommitted : value :=
  VDict (<["icesat2" := VDict (<["version" := VScalar (SStr "v1.0.5")]> ∅)]> ∅).

(** The names after the options and map cells of the sample session. *)
Definition ready : globals :=
  {| SRwidgets := Some 0; m := Some 2; gdf := None; parms := None |}.

(** The same session against a service that refuses every request. *)
Definition refusing (parm : gmap string value) (a v : scalar) : outcome table :=
  inl (Raised "RuntimeError" "request refused").

Definition refused (regions : list region) : world :=
  {| values := sample_values;
     indices := fun _ => SInt 3;
     selections := fun _ => [SStr "atl08_ground"];
     chosen_file := "ATL06-SR.h5";
     chosen_format := HDF5;
     drawn := regions;
     service := refusing;
     service_version := sample_version;
     disk := ∅;
     next := 0 |}.

(** The sample session with another storage format chosen. *)
Definition choosing (format : file_format) (regions : list region) : world :=
  {| values := sample_values;
     indices := fun _ => SInt 3;
     selections := fun _ => [SStr "atl08_ground"];
     chosen_file := "ATL06-SR.out";
     chosen_format := format;
     drawn := regions;
     service := sample_service;
     service_version := sample_version;
     disk := ∅;
     next := 0 |}.

End Env.

(** ** Reading a trace *)

(** The request sent to the processing endpoint by an entry, with its
    answer. *)
Definition exchange (e : entry) : option (gmap string value * outcome table) :=
  match e with
  | Entry c r =>
      match c in ext T return outcome T -> option (gmap string value * outcome table) with
      | icesat2_atl06p parm _ _ => fun r => Some (parm, r)
      | _ => fun _ => None
      end r
  end.

(** The parameter records submitted, in order. *)
Definition submitted (tr : list entry) : list (gmap string value) :=
  omap (fun e => fst <$> exchange e) tr.

(** The tables received from the endpoint, in order. *)
Definition received (e : entry) : option table :=
  match exchange e with
  | Some (_, inr t) => Some t
  | _ => None
  end.

Definition answers (tr : list entry) : list table := omap received tr.

(** The frames answered by [icesat2.__emptyframe()]. *)
Definition empty_frame (e : entry) : option table :=
  match e with
  | Entry c r =>
      match c in ext T return outcome T -> option table with
      | icesat2_emptyframe => fun r => match r with inr t => Some t | inl _ => None end
      | _ => fun _ => None
      end r
  end.

Definition frames (tr : list entry) : list table := omap empty_frame tr.

(** The regions answered by [m.regions]. *)
Definition regions_answer (e : entry) : option (list region) :=
  match e with
  | Entry c r =>
      match c in ext T return outcome T -> option (list region) with
      | leaflet_regions _ => fun r => match r with inr l => Some l | inl _ => None end
      | _ => fun _ => None
      end r
  end.

Definition regions_read (tr : list entry) : list (list region) := omap regions_answer tr.

(** The versions answered by [icesat2.get_version()]. *)
Definition version_answer (e : entry) : option value :=
  match e with
  | Entry c r =>
      match c in ext T return outcome T -> option value with
      | icesat2_get_version => fun r => match r with inr v => Some v | inl _ => None end
      | _ => fun _ => None
      end r
  end.

Definition versions (tr : list entry) : list value := omap version_answer tr.

(** The figures created: the [num] of each [plt.subplots] call. *)
Definition figure (e : entry) : option Z :=
  match e with
  | Entry c _ =>
      match c with
      | plt_subplots num _ _ _ _ => Some num
      | _ => None
      end
  end.

Definition figures (tr : list entry) : list Z := omap figure tr.

(** The files written and read: path, format and driver. *)
Definition saved (e : entry) : option (string * file_format * string) :=
  match e with
  | Entry c _ =>
      match c with
      | io_to_file _ file format driver _ _ _ => Some (file, format, driver)
      | _ => None
      end
  end.

Definition loaded (e : entry) : option (string * file_format * string) :=
  match e with
  | Entry c _ =>
      match c with
      | io_from_file file format driver => Some (file, format, driver)
      | _ => None
      end
  end.

(** The parameters handed to [io.to_file]. *)
Definition saved_parameters (e : entry) : option (gmap string value) :=
  match e with
  | Entry c _ =>
      match c with
      | io_to_file _ _ _ _ parameters _ _ => Some parameters
      | _ => None
      end
  end.

(** The table handed to [io.to_file]. *)
Definition saved_table (e : entry) : option table :=
  match e with
  | Entry c _ =>
      match c with
      | io_to_file frame _ _ _ _ _ _ => Some frame
      | _ => None
      end
  end.

(** ** The steps of the flow

    The steps the specification lists: the user sets the widget values,
    the user draws polygons, a parameter record is assembled, the endpoint
    is called, a table is received, a plot is rendered, the table is
    persisted, the table is reloaded. *)
Inductive stage : Type :=
| ValuesSet | PolygonsDrawn | Assembling | Called | Received
| Plotted | Persisted | Reloaded.

#[global] Instance stage_eq_dec : EqDecision stage.
Proof. solve_decision. Defined.

(** The widgets whose reading goes into the parameter record. *)
Definition in_record (w : Widget.t) : bool :=
  match w with
  | Widget.surface_type | Widget.length | Widget.step | Widget.confidence
  | Widget.land_class | Widget.iteration | Widget.spread | Widget.count
  | Widget.window | Widget.sigma => true
  | _ => false
  end.

(** The step a call starts when it is made, and the step that is done
    when it has answered: a request is [Called] when made and its table
    [Received] when answered; a value is read into the record
    ([Assembling]), a figure created ([Plotted]), the file written
    ([Persisted]) or read ([Reloaded]) when the call has answered. *)
Definition stage_made {T : Type} (c : ext T) : list stage :=
  match c with
  | icesat2_atl06p _ _ _ => [Called]
  | _ => []
  end.

Definition stage_done {T : Type} (c : ext T) : list stage :=
  match c with
  | widget_value _ w | widget_index _ w | widget_selection _ w =>
      if in_record w then [Assembling] else []
  | icesat2_atl06p _ _ _ => [Received]
  | plt_subplots _ _ _ _ _ => [Plotted]
  | io_to_file _ _ _ _ _ _ _ => [Persisted]
  | io_from_file _ _ _ => [Reloaded]
  | _ => []
  end.

Definition stages_of (e : entry) : list stage :=
  match e with
  | Entry c r => stage_made c ++ match r with inr _ => stage_done c | inl _ => [] end
  end.

Definition stages (tr : list entry) : list stage := flat_map stages_of tr.

(** The order in which the specification lists the steps. *)
Definition rank (s : stage) : nat :=
  match s with
  | ValuesSet => 0
  | PolygonsDrawn => 1
  | Assembling => 2
  | Called => 3
  | Received => 4
  | Plotted => 5
  | Persisted => 6
  | Reloaded => 7
  end.

(** The phases of the notebook: the three steps of a request belong to
    one phase, the request loop, which goes through them once per region. *)
Definition phase (s : stage) : nat :=
  match s with
  | ValuesSet => 0
  | PolygonsDrawn => 1
  | Assembling | Called | Received => 2
  | Plotted => 3
  | Persisted => 4
  | Reloaded => 5
  end.

(** The phase a cell's calls belong to. *)
Definition cell_phase (c : cell) : option nat :=
  match c with
  | Requests => Some 2
  | Plots => Some 3
  | Save => Some 4
  | Load => Some 5
  | _ => None
  end.

(** ** Reasoning about every environment

    [wp p Q]: whatever the environment answers, the calls made by [p] and
    its result satisfy [Q]. *)
Fixpoint wp {A : Type} (p : prog A) (Q : list entry -> A -> Prop) : Prop :=
  match p with
  | Ret a => Q [] a
  | Call c k => forall r, wp (k r) (fun tr a => Q (Entry c r :: tr) a)
  end.

(** Programs that only sequence calls, name reads and writes, and raises:
    no statement looks at an exception.  [P] restricts the calls made and
    [S] the assignments to global names. *)
Inductive straight (P : forall T : Type, ext T -> Prop) (S : (globals -> globals) -> Prop) :
    forall A : Type, M A -> Prop :=
| straight_ret A (a : A) : straight P S A (ret a)
| straight_raise A (e : exn) : straight P S A (raise e)
| straight_load A name (field : globals -> option A) : straight P S A (load name field)
| straight_store upd : S upd -> straight P S unit (store upd)
| straight_call T (c : ext T) : P T c -> straight P S T (call c)
| straight_bind A B (c : M A) (f : A -> M B) :
    straight P S A c -> (forall a, straight P S B (f a)) -> straight P S B (bind c f).

Arguments straight P S {A} c.

(** The global names each cell assigns. *)
Inductive writes : cell -> (globals -> globals) -> Prop :=
| writes_SRwidgets o : writes Options (set_SRwidgets o)
| writes_m o : writes RegionMap (set_m o)
| writes_gdf_requests t : writes Requests (set_gdf t)
| writes_parms_requests d : writes Requests (set_parms d)
| writes_parms_save d : writes Save (set_parms d)
| writes_gdf_load t : writes Load (set_gdf t).

(** A property of a trace and of the way it ended that every straight
    program has: it holds of each single statement and is kept by running
    a second program after a first that did not raise. *)
Record compositional (P : forall T : Type, ext T -> Prop)
    (S : (globals -> globals) -> Prop)
    (Phi : list entry -> option exn -> globals -> globals -> Prop) : Prop := {
  comp_done : forall g, Phi [] None g g;
  comp_raise : forall e g, Phi [] (Some e) g g;
  comp_store : forall upd g, S upd -> Phi [] None g (upd g);
  comp_call : forall T (c : ext T) r g, P T c -> Phi [Entry c r] (raised (Entry c r)) g g;
  comp_seq : forall tr1 tr2 o g g1 g2,
    Phi tr1 None g g1 -> Phi tr2 o g1 g2 -> Phi (tr1 ++ tr2) o g g2
}.

Arguments comp_done {P S Phi} _.
Arguments comp_raise {P S Phi} _.
Arguments comp_store {P S Phi} _.
Arguments comp_call {P S Phi} _ {T}.
Arguments comp_seq {P S Phi} _.

(** How an outcome ended. *)
Definition ended {A : Type} (r : outcome A) : option exn :=
  match r with inl e => Some e | inr _ => None end.

(** No call of the trace raised. *)
Definition quiet (tr : list entry) : Prop := Forall (fun e => raised e = None) tr.

(** An exception raised by a call ends the trace and is the outcome,
    unchanged. *)
Definition propagated (tr : list entry) (o : option exn) : Prop :=
  forall pre x post e,
    tr = (pre ++ x :: post) -> raised x = Some e -> post = [] /\ o = Some e.

(** The calls each cell makes, by kind (and, for the file helper, with
    the driver the notebook names). *)
Definition may_call (c : cell) {T : Type} (x : ext T) : bool :=
  match c, x with
  | Imports, (py_import _ | ipy_magic _) => true
  | Options, (icesat2_init _ _ | ipysliderule_widgets | widgets_VBox _ | display _) => true
  | RegionMap, (widget_value _ _ | ipysliderule_leaflet _ | display _) => true
  | Requests, (widget_value _ _ | widget_index _ _ | widget_selection _ _
               | icesat2_emptyframe | leaflet_regions _ | icesat2_atl06p _ _ _) => true
  | Plots, (cartopy_crs _ | plt_subplots _ _ _ _ _ | mpl_call _ _ _ _ | np_arange _ _ _
            | leaflet_regions _ | io_from_region _ | plt_show) => true
  | FileSaver, display _ => true
  | Save, (icesat2_get_version | widgets_file _ | widgets_format _ | leaflet_regions _) =>
      true
  | Save, io_to_file _ _ _ driver _ _ _ => bool_decide (driver = "pytables")
  | FileLoader, display _ => true
  | Load, (widgets_file _ | widgets_format _) => true
  | Load, io_from_file _ _ driver => bool_decide (driver = "pytables")
  | _, _ => false
  end.

(** ** The shape of the request cell's run *)

(** The keys of a parameter record. *)
Definition parm_keys : gset string :=
  list_to_set ["poly"; "srt"; "len"; "res"; "cnf"; "atl08_class"; "maxi";
               "ats"; "cnt"; "H_min_win"; "sigma_r_max"].

Definition scalar_at (d : gmap string value) (key : string) : Prop :=
  exists s, d !! key = Some (VScalar s).

Definition list_at (d : gmap string value) (key : string) : Prop :=
  exists l, d !! key = Some (VList (map VScalar l)).

(** A mapping all of whose values are scalars. *)
Definition scalars_only (d : gmap string value) : Prop :=
  map_Forall (fun _ v => is_scalar v = true) d.

(** A value that nests no deeper than a list of mappings of scalars: a
    scalar, a mapping of scalars, or a list of scalars and of mappings of
    scalars. *)
Definition flat_value (v : value) : Prop :=
  match v with
  | VScalar _ => True
  | VDict d => scalars_only d
  | VList l =>
      Forall (fun x => match x with
                       | VScalar _ => True
                       | VDict d => scalars_only d
                       | VList _ => False
                       end) l
  end.

(** The parameter record of region [poly]: exactly the eleven keys, no
    value nested deeper than a list of mappings of scalars, the boundary
    under ["poly"], a list of classes, scalars elsewhere. *)
Record flat_parms (poly : region) (d : gmap string value) : Prop := {
  flat_keys : dom d = parm_keys;
  flat_values : forall key v, d !! key = Some v -> flat_value v;
  flat_poly : d !! "poly" = Some (region_value poly);
  flat_srt : scalar_at d "srt";
  flat_len : scalar_at d "len";
  flat_res : scalar_at d "res";
  flat_cnf : scalar_at d "cnf";
  flat_atl08_class : list_at d "atl08_class";
  flat_maxi : scalar_at d "maxi";
  flat_ats : scalar_at d "ats";
  flat_cnt : scalar_at d "cnt";
  flat_H_min_win : scalar_at d "H_min_win";
  flat_sigma_r_max : scalar_at d "sigma_r_max"
}.

(** The ten widget reads that assemble one record, with their answers. *)
Definition assembly (sr : obj) (srt len res cnf : scalar) (atl08_class : list scalar)
    (maxi ats cnt H_min_win sigma_r_max : scalar) : list entry :=
  [ Entry (widget_index sr Widget.surface_type) (inr srt);
    Entry (widget_value sr Widget.length) (inr len);
    Entry (widget_value sr Widget.step) (inr res);
    Entry (widget_value sr Widget.confidence) (inr cnf);
    Entry (widget_selection sr Widget.land_class) (inr atl08_class);
    Entry (widget_value sr Widget.iteration) (inr maxi);
    Entry (widget_value sr Widget.spread) (inr ats);
    Entry (widget_value sr Widget.count) (inr cnt);
    Entry (widget_value sr Widget.window) (inr H_min_win);
    Entry (widget_value sr Widget.sigma) (inr sigma_r_max) ].

(** The record that holds the region [poly] and the ten answers, key by
    key: the index of the surface type under ["srt"], the value of the
    length widget under ["len"], and so on. *)
Record parms_from (poly : region) (srt len res cnf : scalar) (atl08_class : list scalar)
    (maxi ats cnt H_min_win sigma_r_max : scalar) (d : gmap string value) : Prop := {
  from_keys : dom d = parm_keys;
  from_poly : d !! "poly" = Some (region_value poly);
  from_srt : d !! "srt" = Some (VScalar srt);
  from_len : d !! "len" = Some (VScalar len);
  from_res : d !! "res" = Some (VScalar res);
  from_cnf : d !! "cnf" = Some (VScalar cnf);
  from_atl08_class : d !! "atl08_class" = Some (VList (map VScalar atl08_class));
  from_maxi : d !! "maxi" = Some (VScalar maxi);
  from_ats : d !! "ats" = Some (VScalar ats);
  from_cnt : d !! "cnt" = Some (VScalar cnt);
  from_H_min_win : d !! "H_min_win" = Some (VScalar H_min_win);
  from_sigma_r_max : d !! "sigma_r_max" = Some (VScalar sigma_r_max)
}.

(** Every request of the trace comes right after the ten widget reads of
    its turn, all answered, and carries the record of their answers. *)
Definition assembled_before (tr : list entry) : Prop :=
  forall pre d asset release r post,
    tr = pre ++ Entry (icesat2_atl06p d asset release) r :: post ->
    exists before sr poly srt len res cnf atl08_class maxi ats cnt H_min_win sigma_r_max,
      pre = before ++ assembly sr srt len res cnf atl08_class maxi ats cnt
                        H_min_win sigma_r_max
      /\ parms_from poly srt len res cnf atl08_class maxi ats cnt
                    H_min_win sigma_r_max d.

(** One completed turn of the request loop for region [poly]: the record
    [d] is assembled, then submitted, then the table [t] is received. *)
Inductive request_block (sr : obj) (asset release : scalar) (poly : region) :
    list entry -> gmap string value -> table -> Prop :=
| request_block_intro srt len res cnf atl08_class maxi ats cnt H_min_win sigma_r_max t :
    let d := parms_record poly srt len res cnf atl08_class maxi ats cnt
               H_min_win sigma_r_max in
    request_block sr asset release poly
      (assembly sr srt len res cnf atl08_class maxi ats cnt H_min_win sigma_r_max
       ++ [Entry (icesat2_atl06p d asset release) (inr t)])
      d t.

(** The completed loop: one turn per region, in the order of the list. *)
Inductive request_blocks (sr : obj) (asset release : scalar) :
    list region -> list entry -> list (gmap string value) -> list table -> Prop :=
| request_blocks_nil : request_blocks sr asset release [] [] [] []
| request_blocks_cons poly rest blk d t tr ds ts :
    request_block sr asset release poly blk d t ->
    request_blocks sr asset release rest tr ds ts ->
    request_blocks sr asset release (poly :: rest) (blk ++ tr) (d :: ds) (t :: ts).

(** The calls of the request cell before its loop. *)
Definition request_prologue (sr mm : obj) (asset release : scalar) (empty : table)
    (regions : list region) : list entry :=
  [ Entry (widget_value sr Widget.asset) (inr asset);
    Entry (widget_value sr Widget.release) (inr release);
    Entry icesat2_emptyframe (inr empty);
    Entry (leaflet_regions mm) (inr regions) ].

(** What holds of one turn of the request loop started with the names
    [g], of the whole loop over [regions], and of the cell. *)
Definition request_one_post (sr : obj) (asset release : scalar) (poly : region)
    (g : globals) (tr : list entry) (x : outcome unit * globals) : Prop :=
  SRwidgets (snd x) = SRwidgets g /\ m (snd x) = m g
  /\ (fst x = inr tt ->
      exists d t, request_block sr asset release poly tr d t
        /\ gdf (snd x) = (fun frame => append frame t) <$> gdf g
        /\ parms (snd x) = Some d)
  /\ (quiet tr -> is_Some (gdf g) -> fst x = inr tt)
  /\ Forall (flat_parms poly) (submitted tr).

Definition request_loop_post (sr : obj) (asset release : scalar) (regions : list region)
    (g : globals) (tr : list entry) (x : outcome unit * globals) : Prop :=
  SRwidgets (snd x) = SRwidgets g /\ m (snd x) = m g
  /\ (fst x = inr tt ->
      exists ds ts, request_blocks sr asset release regions tr ds ts
        /\ gdf (snd x) = (fun frame => fold_left append ts frame) <$> gdf g
        /\ parms (snd x) = from_option Some (parms g) (last ds))
  /\ (quiet tr -> is_Some (gdf g) -> fst x = inr tt)
  /\ Forall (fun d => exists poly, poly ∈ regions /\ flat_parms poly d) (submitted tr).

Definition requests_post (g : globals) (tr : list entry)
    (x : outcome unit * globals) : Prop :=
  (fst x = inr tt ->
   exists sr mm asset release empty regions loop ds ts,
     SRwidgets g = Some sr /\ m g = Some mm
     /\ tr = request_prologue sr mm asset release empty regions ++ loop
     /\ request_blocks sr asset release regions loop ds ts
     /\ snd x = {| SRwidgets := Some sr; m := Some mm;
                   gdf := Some (fold_left append ts empty);
                   parms := from_option Some (parms g) (last ds) |})
  /\ (quiet tr -> is_Some (SRwidgets g) -> is_Some (m g) -> fst x = inr tt)
  /\ Forall (fun d => exists poly, flat_parms poly d) (submitted tr).

(** ** The shape of the plotting cell's run *)

(** The method of a plotting call. *)
Definition method (e : entry) : option string :=
  match e with
  | Entry c _ =>
      match c with
      | plt_subplots _ _ _ _ _ => Some "plt.subplots"
      | mpl_call _ name _ _ => Some name
      | plt_show => Some "plt.show"
      | _ => None
      end
  end.

Definition methods (tr : list entry) : list string := omap method tr.

(** The completed first figure: the points of [frame] on a map of the
    whole globe. *)
Inductive ground_tracks_run (frame : table) : list entry -> Prop :=
| ground_tracks_intro pc f1 ax1 geod a1 pc' a2 a3 a4 xlocs ylocs a5 a6 a7 a8 a9 :
    ground_tracks_run frame
      [ Entry (cartopy_crs "PlateCarree") (inr pc);
        Entry (plt_subplots 1 1 1 (10, 6)%Z pc) (inr (f1, ax1));
        Entry (cartopy_crs "Geodetic") (inr geod);
        Entry (mpl_call ax1 "plot"
                 [ACol (geometry_x frame); ACol (geometry_y frame); str "r."]
                 [("ms", int 1); ("transform", AObj geod)]) (inr a1);
        Entry (cartopy_crs "PlateCarree") (inr pc');
        Entry (mpl_call ax1 "set_extent"
                 [ATuple [int (-180); int 180; int (-90); int 90]]
                 [("crs", AObj pc')]) (inr a2);
        Entry (mpl_call ax1 "add_feature" [AName "cartopy.feature.LAND"]
                 [("zorder", int 0); ("edgecolor", str "black")]) (inr a3);
        Entry (mpl_call ax1 "add_feature" [AName "cartopy.feature.LAKES"] []) (inr a4);
        Entry (np_arange (-180) 181 60) (inr xlocs);
        Entry (np_arange (-90) 91 30) (inr ylocs);
        Entry (mpl_call ax1 "gridlines" []
                 [("xlocs", ACol xlocs); ("ylocs", ACol ylocs)]) (inr a5);
        Entry (mpl_call ax1 "set_title" [str "Ground Tracks"] []) (inr a6);
        Entry (mpl_call ax1 "spines['geo'].set_linewidth" [flt 2.0] []) (inr a7);
        Entry (mpl_call ax1 "spines['geo'].set_capstyle" [str "projecting"] []) (inr a8);
        Entry (mpl_call f1 "subplots_adjust" []
                 [("left", flt 0.02); ("right", flt 0.98);
                  ("bottom", flt 0.05); ("top", flt 0.98)]) (inr a9) ].

(** The completed outline of one region, and of all regions in order. *)
Inductive outline_run (ax2 : obj) (poly : region) : list entry -> Prop :=
| outline_intro lons lats pc a :
    outline_run ax2 poly
      [ Entry (io_from_region poly) (inr (lons, lats));
        Entry (cartopy_crs "PlateCarree") (inr pc);
        Entry (mpl_call ax2 "plot" [ACol lons; ACol lats; str "r"]
                 [("lw", flt 1.5); ("transform", AObj pc)]) (inr a) ].

Inductive outlines_run (ax2 : obj) : list region -> list entry -> Prop :=
| outlines_nil : outlines_run ax2 [] []
| outlines_cons poly rest blk tr :
    outline_run ax2 poly blk -> outlines_run ax2 rest tr ->
    outlines_run ax2 (poly :: rest) (blk ++ tr).

(** The completed second figure: the points of [frame] coloured by
    [h_mean], the outlines of the regions, and the colorbar of the
    scatter plot. *)
Inductive heights_run (frame : table) (mm : obj) (regions : list region) :
    list entry -> Prop :=
| heights_intro pc f2 ax2 pc' sc loop b1 b2 cbar_ax cbar b3 b4 b5 b6 b7 b8 b9 b10 :
    outlines_run ax2 regions loop ->
    heights_run frame mm regions
      ([ Entry (cartopy_crs "PlateCarree") (inr pc);
         Entry (plt_subplots 2 1 1 (10, 6)%Z pc) (inr (f2, ax2));
         Entry (cartopy_crs "PlateCarree") (inr pc');
         Entry (mpl_call ax2 "scatter"
                  [ACol (geometry_x frame); ACol (geometry_y frame)]
                  [("c", ACol (h_mean frame)); ("s", int 1); ("edgecolor", str "none");
                   ("cmap", AName "plt.cm.viridis"); ("transform", AObj pc')]) (inr sc);
         Entry (leaflet_regions mm) (inr regions) ]
       ++ loop
       ++ [ Entry (mpl_call ax2 "add_feature" [AName "cartopy.feature.LAND"]
                     [("zorder", int 0); ("edgecolor", str "black")]) (inr b1);
            Entry (mpl_call ax2 "add_feature" [AName "cartopy.feature.LAKES"] []) (inr b2);
            Entry (mpl_call f2 "add_axes"
                     [AVal (VList [VScalar (SFloat 0.87); VScalar (SFloat 0.015);
                                   VScalar (SFloat 0.0325); VScalar (SFloat 0.94)])] [])
                  (inr cbar_ax);
            Entry (mpl_call f2 "colorbar" [AObj sc]
                     [("cax", AObj cbar_ax); ("extend", str "both");
                      ("extendfrac", flt 0.0375); ("drawedges", boolean false);
                      ("orientation", str "vertical")]) (inr cbar);
            Entry (mpl_call cbar "solids.set_rasterized" [boolean true] []) (inr b3);
            Entry (mpl_call cbar "ax.set_ylabel" [str "Height above WGS84 Ellipsoid"]
                     [("labelpad", int 10)]) (inr b4);
            Entry (mpl_call cbar "ax.set_xlabel" [str "m"] [("rotation", int 0)]) (inr b5);
            Entry (mpl_call cbar "ax.xaxis.set_label_coords" [flt 0.5; flt 1.05] [])
                  (inr b6);
            Entry (mpl_call cbar "ax.tick_params" []
                     [("which", str "both"); ("width", int 1); ("direction", str "in")])
                  (inr b7);
            Entry (mpl_call ax2 "spines['geo'].set_linewidth" [flt 2.0] []) (inr b8);
            Entry (mpl_call ax2 "spines['geo'].set_capstyle" [str "projecting"] [])
                  (inr b9);
            Entry (mpl_call f2 "subplots_adjust" []
                     [("left", flt 0.02); ("right", flt 0.86);
                      ("bottom", flt 0.05); ("top", flt 0.98)]) (inr b10) ]).

(** The methods of the two figures, in order. *)
Definition ground_tracks_methods : list string :=
  [ "plt.subplots"; "plot"; "set_extent"; "add_feature"; "add_feature"; "gridlines";
    "set_title"; "spines['geo'].set_linewidth"; "spines['geo'].set_capstyle";
    "subplots_adjust" ].

Definition heights_methods (outlines : nat) : list string :=
  [ "plt.subplots"; "scatter" ] ++ replicate outlines "plot"
  ++ [ "add_feature"; "add_feature"; "add_axes"; "colorbar"; "solids.set_rasterized";
       "ax.set_ylabel"; "ax.set_xlabel"; "ax.xaxis.set_label_coords"; "ax.tick_params";
       "spines['geo'].set_linewidth"; "spines['geo'].set_capstyle"; "subplots_adjust" ].

(** What holds of a part of the plotting cell that assigns no name: when
    it completes its calls have the shape [shape]; it completes when
    [bound] names are bound and no call raises. *)
Definition plot_post (shape : list entry -> Prop) (bound : Prop) (g : globals)
    (tr : list entry) (x : outcome unit * globals) : Prop :=
  snd x = g
  /\ (fst x = inr tt -> shape tr)
  /\ (quiet tr -> bound -> fst x = inr tt).

(** ** The shape of the other cells' runs *)

(** The completed options cell. *)
Inductive options_run : list entry -> globals -> globals -> Prop :=
| options_intro g sr box :
    options_run
      [ Entry (icesat2_init "icesat2sliderule.org" logging_WARNING) (inr tt);
        Entry ipysliderule_widgets (inr sr);
        Entry (widgets_VBox (map (DWidget sr)
                 [Widget.asset; Widget.release; Widget.surface_type; Widget.length;
                  Widget.step; Widget.confidence; Widget.land_class; Widget.iteration;
                  Widget.spread; Widget.count; Widget.window; Widget.sigma;
                  Widget.projection])) (inr box);
        Entry (display (DObj box)) (inr tt) ]
      g (set_SRwidgets sr g).

(** The completed map cell. *)
Inductive map_run : list entry -> globals -> globals -> Prop :=
| map_intro g sr proj mm :
    SRwidgets g = Some sr ->
    map_run
      [ Entry (widget_value sr Widget.projection) (inr proj);
        Entry (ipysliderule_leaflet proj) (inr mm);
        Entry (display (DMap mm)) (inr tt) ]
      g (set_m mm g).

(** The completed save cell: the version is asked for, its two fields
    are added to the record bound to [parms], and the table bound to
    [gdf] is written with that record. *)
Inductive save_run : list entry -> globals -> globals -> Prop :=
| save_intro g sr mm frame d dv dc v c file format regions :
    SRwidgets g = Some sr -> m g = Some mm ->
    gdf g = Some frame -> parms g = Some d ->
    dv !! "icesat2" = Some (VDict dc) ->
    dc !! "version" = Some v -> dc !! "commit" = Some c ->
    let d' := <["commit" := c]> (<["version" := v]> d) in
    save_run
      [ Entry icesat2_get_version (inr (VDict dv));
        Entry (widgets_file sr) (inr file);
        Entry (widgets_format sr) (inr format);
        Entry (leaflet_regions mm) (inr regions);
        Entry (io_to_file frame file format "pytables" d' regions true) (inr tt) ]
      g (set_parms d' g).

(** The completed load cell. *)
Inductive load_run : list entry -> globals -> globals -> Prop :=
| load_intro g sr file format frame :
    SRwidgets g = Some sr ->
    load_run
      [ Entry (widgets_file sr) (inr file);
        Entry (widgets_format sr) (inr format);
        Entry (io_from_file file format "pytables") (inr frame) ]
      g (set_gdf frame g).

(** What holds of a cell: when it completes, its calls and the names it
    leaves have the shape [shape]. *)
Definition cell_post (shape : list entry -> globals -> globals -> Prop) (g : globals)
    (tr : list entry) (x : outcome unit * globals) : Prop :=
  fst x = inr tt -> shape tr g (snd x).

(** What holds of the save cell when [parms] is not bound: it raises
    without writing a file, and the exception is the [NameError] once the
    version was answered with its ["version"] field. *)
Definition save_unbound_post (tr : list entry) (x : outcome unit * globals) : Prop :=
  fst x <> inr tt /\ omap saved tr = []
  /\ (forall dv dc v,
        versions tr = [VDict dv] ->
        dv !! "icesat2" = Some (VDict dc) -> dc !! "version" = Some v ->
        fst x = inl (NameError "parms")).

(** The completed plotting cell: the first figure, the second, and
    [plt.show()]. *)
Inductive plots_run (frame : table) (mm : obj) (regions : list region) :
    list entry -> Prop :=
| plots_intro tr1 tr2 :
    ground_tracks_run frame tr1 -> heights_run frame mm regions tr2 ->
    plots_run frame mm regions (tr1 ++ tr2 ++ [Entry plt_show (inr tt)]).

(** ** Completed top-to-bottom runs *)

(** [ran handle user cells g w tr g' w']: the cells were executed in
    order from the names [g] and the environment [w], the user acting
    before each, none raised, and they made the calls [tr] and left the
    names [g'] and the environment [w']. *)
Inductive ran {World : Type} (handle : forall T : Type, ext T -> World -> outcome T * World)
    (user : cell -> World -> World) :
    list cell -> globals -> World -> list entry -> globals -> World -> Prop :=
| ran_nil g w : ran handle user [] g w [] g w
| ran_cons c rest g w r tr g' w' :
    r = exec handle c g (user c w) ->
    failure r = None ->
    ran handle user rest (names r) (world r) tr g' w' ->
    ran handle user (c :: rest) g w (trace r ++ tr) g' w'.

(** A cell comes before another in the flow when its phase, if it has
    one, does not come after the other's. *)
Definition precedes (c c' : cell) : Prop :=
  match cell_phase c, cell_phase c' with
  | Some n, Some n' => n <= n'
  | _, _ => True
  end.

(** Playing a list of cells, the user acting before each. *)
Definition plays {World : Type} (user : cell -> World -> World) (cells : list cell) :
    list (step World) :=
  flat_map (fun c => [User (user c); Exec c]) cells.

(** ** The user's turns

    What happened in a played session, the user's turns included: before
    each cell the user has a turn, then the cell makes its calls; a cell
    that raises ends the session. *)
Inductive event : Type :=
| Turn (c : cell)
| Made (e : entry).

Definition made (ev : event) : option entry :=
  match ev with
  | Turn _ => None
  | Made e => Some e
  end.

Fixpoint timeline {World : Type}
    (handle : forall T : Type, ext T -> World -> outcome T * World)
    (user : cell -> World -> World) (cells : list cell) (g : globals) (w : World) :
    list event :=
  match cells with
  | [] => []
  | c :: rest =>
      let r := exec handle c g (user c w) in
      Turn c :: map Made (trace r)
        ++ match failure r with
           | Some _ => []
           | None => timeline handle user rest (names r) (world r)
           end
  end.

(** What the user does in a turn, after the headings of the notebook:
    once the options cell has displayed the widgets, their values are set
    ("Set options for making science data processing requests"), and once
    the map cell has displayed the map, the regions are drawn ("Select
    regions of interest for submitting to SlideRule"). *)
Definition turn_stage (c : cell) : list stage :=
  match c with
  | RegionMap => [ValuesSet]
  | Requests => [PolygonsDrawn]
  | _ => []
  end.

Definition steps_of (ev : event) : list stage :=
  match ev with
  | Turn c => turn_stage c
  | Made e => stages_of e
  end.

Definition steps (tl : list event) : list stage := flat_map steps_of tl.

(** The steps of a played session are those of its calls, after the
    user's turns that were reached. *)
Definition turns_then_calls {World : Type}
    (handle : forall T : Type, ext T -> World -> outcome T * World)
    (user : cell -> World -> World) (cells : list cell)
    (g : globals) (w : World) : Prop :=
  exists turns,
    (turns = [] \/ turns = [ValuesSet] \/ turns = [ValuesSet; PolygonsDrawn])
    /\ steps (timeline handle user cells g w)
       = turns ++ stages (trace (session handle (plays user cells) g w))
    /\ (failure (session handle (plays user cells) g w) = None ->
        turns = [ValuesSet; PolygonsDrawn]).

(** The order of the flow as the specification states it: "no later
    step of this flow runs before an earlier one". *)
Definition in_listed_order (l : list stage) : Prop :=
  StronglySorted le (map rank l).

(** ** What the plots draw *)

(** The columns handed to a [scatter] call: x, y and the colour [c]. *)
Definition scattered (e : entry) : option (list Q * list Q * list Q) :=
  match e with
  | Entry c _ =>
      match c with
      | mpl_call _ name [ACol xs; ACol ys] ((key, ACol cs) :: _) =>
          if decide (name = "scatter" /\ key = "c") then Some (xs, ys, cs) else None
      | _ => None
      end
  end.

(** The columns handed to a [plot] call with the point marker ['r.']. *)
Definition dotted (e : entry) : option (list Q * list Q) :=
  match e with
  | Entry c _ =>
      match c with
      | mpl_call _ name [ACol xs; ACol ys; AVal (VScalar (SStr fmt))] _ =>
          if decide (name = "plot" /\ fmt = "r.") then Some (xs, ys) else None
      | _ => None
      end
  end.

(** ** More readings of a trace *)

(** The asset and the release a request names. *)
Definition destination (e : entry) : option (scalar * scalar) :=
  match e with
  | Entry c _ =>
      match c with
      | icesat2_atl06p _ asset version => Some (asset, version)
      | _ => None
      end
  end.

(** The answers of [SRwidgets.<w>.value] for the widget [w]. *)
Definition widget_answer (w : Widget.t) (e : entry) : option scalar :=
  match e with
  | Entry c r =>
      match c in ext T return outcome T -> option scalar with
      | widget_value _ w' => fun r =>
          match r with
          | inr s => if decide (w' = w) then Some s else None
          | inl _ => None
          end
      | _ => fun _ => None
      end r
  end.

(** The tables answered by [io.from_file]. *)
Definition loaded_table (e : entry) : option table :=
  match e with
  | Entry c r =>
      match c in ext T return outcome T -> option table with
      | io_from_file _ _ _ => fun r => match r with inr t => Some t | inl _ => None end
      | _ => fun _ => None
      end r
  end.

(** The widgets objects answered by [ipysliderule.widgets()]. *)
Definition widgets_created (e : entry) : option obj :=
  match e with
  | Entry c r =>
      match c in ext T return outcome T -> option obj with
      | ipysliderule_widgets => fun r => match r with inr o => Some o | inl _ => None end
      | _ => fun _ => None
      end r
  end.

(** The maps answered by [ipysliderule.leaflet(projection)], with the
    projection they were asked for. *)
Definition map_created (e : entry) : option (scalar * obj) :=
  match e with
  | Entry c r =>
      match c in ext T return outcome T -> option (scalar * obj) with
      | ipysliderule_leaflet proj => fun r =>
          match r with inr o => Some (proj, o) | inl _ => None end
      | _ => fun _ => None
      end r
  end.

(** What holds of every turn of the request loop, completed or not, when
    [gdf] is bound: the table bound to [gdf] grew by the tables received
    and [parms] is the last record submitted. *)
Definition request_kept (g : globals) (tr : list entry)
    (x : outcome unit * globals) : Prop :=
  frames tr = []
  /\ gdf (snd x) = (fun frame => fold_left append (answers tr) frame) <$> gdf g
  /\ parms (snd x) = from_option Some (parms g) (last (submitted tr)).

(** The same of the whole request cell: nothing is assigned before the
    empty frame is answered; from then on [gdf] is that frame with the
    tables received appended and [parms] the last record submitted. *)
Definition requests_kept (g : globals) (tr : list entry)
    (x : outcome unit * globals) : Prop :=
  (frames tr = [] -> snd x = g /\ submitted tr = [])
  /\ (forall empty,
        frames tr = [empty] ->
        gdf (snd x) = Some (fold_left append (answers tr) empty)
        /\ parms (snd x) = from_option Some (parms g) (last (submitted tr))).

(** The widgets whose [.value] is read for every region, inside the
    request loop. *)
Definition per_region : list Widget.t :=
  [ Widget.length; Widget.step; Widget.confidence; Widget.iteration;
    Widget.spread; Widget.count; Widget.window; Widget.sigma ].

(** * Proofs *)

(** ** The program logic *)

Lemma wp_mono {A : Type} (p : prog A) (Q Q' : list entry -> A -> Prop) :
  (forall tr a, Q tr a -> Q' tr a) -> wp p Q -> wp p Q'.
Proof.
  revert Q Q'. induction p as [a | T c k IH]; simpl; intros Q Q' HQ Hp.
  - by apply HQ.
  - intros r. eapply IH; [| apply Hp]. simpl. intros tr a. apply HQ.
Qed.

Lemma wp_pbind {A B : Type} (p : prog A) (f : A -> prog B)
    (Q : list entry -> B -> Prop) :
  wp p (fun tr1 a => wp (f a) (fun tr2 b => Q (tr1 ++ tr2) b)) ->
  wp (pbind p f) Q.
Proof.
  revert Q. induction p as [a | T c k IH]; simpl; intros Q Hp.
  - exact Hp.
  - intros r. apply IH. eapply wp_mono; [| apply Hp]. simpl. auto.
Qed.

Lemma wp_bind {A B : Type} (c : M A) (f : A -> M B) (g : globals)
    (Q : list entry -> outcome B * globals -> Prop) :
  wp (c g) (fun tr1 x =>
    match fst x with
    | inl e => Q tr1 (inl e, snd x)
    | inr a => wp (f a (snd x)) (fun tr2 y => Q (tr1 ++ tr2) y)
    end) ->
  wp (bind c f g) Q.
Proof.
  intros H. unfold bind. apply wp_pbind.
  eapply wp_mono; [| apply H]. simpl.
  intros tr [[e | a] g'] HQ; simpl in *.
  - by rewrite app_nil_r.
  - exact HQ.
Qed.

Lemma wp_sound {World : Type} (handle : forall T, ext T -> World -> outcome T * World)
    {A : Type} (p : prog A) (Q : list entry -> A -> Prop) (w : World) :
  wp p Q -> Q (fst (fst (run handle p w))) (snd (fst (run handle p w))).
Proof.
  revert Q w. induction p as [a | T c k IH]; simpl; intros Q w Hp.
  - exact Hp.
  - destruct (handle T c w) as [r w1].
    specialize (IH r _ w1 (Hp r)).
    destruct (run handle (k r) w1) as [[tr a] w2]. exact IH.
Qed.

Lemma straight_wp {P : forall T : Type, ext T -> Prop}
    {S : (globals -> globals) -> Prop}
    {Phi : list entry -> option exn -> globals -> globals -> Prop}
    {A : Type} {c : M A} :
  compositional P S Phi -> straight P S c ->
  forall g, wp (c g) (fun tr x => Phi tr (ended (fst x)) g (snd x)).
Proof.
  intros HPhi Hc. induction Hc as [A a | A e | A name field | upd Hupd | T c Hc
                                   | A B c f Hc IHc Hf IHf]; intros g.
  - apply (comp_done HPhi).
  - apply (comp_raise HPhi).
  - unfold load. destruct (field g); simpl.
    + apply (comp_done HPhi).
    + apply (comp_raise HPhi).
  - by apply (comp_store HPhi).
  - simpl. intros r.
    generalize (comp_call HPhi c r g Hc). by destruct r.
  - apply wp_bind. eapply wp_mono; [| apply IHc]. simpl.
    intros tr1 [[e | a] g1] H1; simpl in *; [exact H1 |].
    eapply wp_mono; [| apply IHf]. simpl.
    intros tr2 y H2. by apply (comp_seq HPhi) with g1.
Qed.

(** ** Every cell is straight-line code *)

Lemma straight_weaken (P P' : forall T : Type, ext T -> Prop)
    (S S' : (globals -> globals) -> Prop) {A : Type} (c : M A) :
  (forall T (x : ext T), P T x -> P' T x) -> (forall upd, S upd -> S' upd) ->
  straight P S c -> straight P' S' c.
Proof.
  intros HP HS Hc. induction Hc; constructor; auto.
Qed.

Lemma straight_for_each (P : forall T : Type, ext T -> Prop)
    (S : (globals -> globals) -> Prop) {A : Type}
    (xs : list A) (body : A -> M unit) :
  (forall x, straight P S (body x)) -> straight P S (for_each xs body).
Proof.
  intros Hbody. induction xs as [| x rest IH]; simpl.
  - constructor.
  - constructor; auto.
Qed.

Lemma straight_getitem (P : forall T : Type, ext T -> Prop)
    (S : (globals -> globals) -> Prop) (v : value) (key : string) :
  straight P S (getitem v key).
Proof.
  destruct v as [s | l | d]; simpl; try constructor.
  destruct (d !! key); constructor.
Qed.

Ltac straight :=
  repeat first
    [ apply straight_ret
    | apply straight_raise
    | apply straight_load
    | apply straight_store; constructor
    | apply straight_getitem
    | apply straight_call; reflexivity
    | apply straight_for_each; intros
    | apply straight_bind; [| intros] ].

Lemma cell_straight (c : cell) :
  straight (fun T x => may_call c x = true) (writes c) (cell_body c).
Proof.
  destruct c; simpl;
    unfold cell_imports, cell_options, cell_map, cell_requests, cell_plots,
      cell_filesaver, cell_save, cell_fileloader, cell_load,
      request_one, build_parms, plot_ground_tracks, plot_heights, outline,
      add_land_and_lakes, strong_frame, parms_setitem, PlateCarree, Geodetic,
      SRwidgets_value, SRwidgets_index, SRwidgets_selection, SRwidgets_file,
      SRwidgets_format, m_regions;
    straight.
Qed.

(** ** Cells and sessions *)

Section Sessions.

Variable World : Type.
Variable handle : forall T : Type, ext T -> World -> outcome T * World.

Lemma exec_wp (Phi : list entry -> option exn -> globals -> Prop)
    (c : cell) (g : globals) (w : World) :
  wp (cell_body c g) (fun tr x => Phi tr (ended (fst x)) (snd x)) ->
  Phi (trace (exec handle c g w)) (failure (exec handle c g w))
      (names (exec handle c g w)).
Proof.
  intros H. apply (wp_sound handle _ _ w) in H.
  unfold exec. destruct (run handle (cell_body c g) w) as [[tr [r g']] w'].
  simpl in *. destruct r; exact H.
Qed.

Lemma exec_straight (Phi : list entry -> option exn -> globals -> globals -> Prop)
    (c : cell) (g : globals) (w : World) :
  compositional (fun T x => may_call c x = true) (writes c) Phi ->
  Phi (trace (exec handle c g w)) (failure (exec handle c g w)) g
      (names (exec handle c g w)).
Proof.
  intros HPhi.
  apply (exec_wp (fun tr o g' => Phi tr o g g')).
  apply (straight_wp HPhi (cell_straight c)).
Qed.

Lemma session_nil (g : globals) (w : World) :
  session handle [] g w = {| trace := []; failure := None; names := g; world := w |}.
Proof. reflexivity. Qed.

Lemma session_user (act : World -> World) (rest : list (step World))
    (g : globals) (w : World) :
  session handle (User act :: rest) g w = session handle rest g (act w).
Proof. reflexivity. Qed.

Lemma session_exec_failed (c : cell) (rest : list (step World))
    (g : globals) (w : World) (e : exn) :
  failure (exec handle c g w) = Some e ->
  session handle (Exec c :: rest) g w = exec handle c g w.
Proof. intros H. simpl. by rewrite H. Qed.

Lemma session_exec_done (c : cell) (rest : list (step World))
    (g : globals) (w : World) :
  failure (exec handle c g w) = None ->
  let r := exec handle c g w in
  let r' := session handle rest (names r) (world r) in
  session handle (Exec c :: rest) g w =
    {| trace := (trace r ++ trace r'); failure := failure r';
       names := names r'; world := world r' |}.
Proof. intros H. simpl. by rewrite H. Qed.

(** A property of traces and endings that holds of every cell and is
    kept by sequencing holds of every session. *)
Lemma session_compositional
    (Phi : list entry -> option exn -> globals -> globals -> Prop) :
  (forall g, Phi [] None g g) ->
  (forall c g w, Phi (trace (exec handle c g w)) (failure (exec handle c g w)) g
                     (names (exec handle c g w))) ->
  (forall tr1 tr2 o g g1 g2,
      Phi tr1 None g g1 -> Phi tr2 o g1 g2 -> Phi (tr1 ++ tr2) o g g2) ->
  forall steps g w,
    Phi (trace (session handle steps g w)) (failure (session handle steps g w)) g
        (names (session handle steps g w)).
Proof.
  intros Hnil Hcell Hseq steps.
  induction steps as [| [c | act] rest IH]; intros g w.
  - apply Hnil.
  - destruct (failure (exec handle c g w)) as [e |] eqn:Hf.
    + rewrite (session_exec_failed c rest g w e Hf). apply Hcell.
    + rewrite (session_exec_done c rest g w Hf). simpl.
      eapply Hseq; [| apply IH]. rewrite <- Hf. apply Hcell.
  - rewrite session_user. apply IH.
Qed.

End Sessions.

Arguments exec_wp {World} handle Phi c g w _.
Arguments exec_straight {World} handle Phi c g w _.
Arguments session_exec_failed {World} handle c rest g w e _.
Arguments session_exec_done {World} handle c rest g w _.
Arguments session_compositional {World} handle Phi _ _ _ steps g w.

(** ** Exceptions *)

Lemma propagated_seq (tr1 tr2 : list entry) (o : option exn) :
  propagated tr1 None -> propagated tr2 o -> propagated (tr1 ++ tr2) o.
Proof.
  intros H1 H2 pre x post e Heq Hx.
  apply app_eq_app in Heq as [l [[Htr1 Hpost] | [Hpre Htr2]]].
  - destruct l as [| y l].
    + simpl in Hpost. by apply (H2 [] x post e).
    + simpl in Hpost. injection Hpost as -> ->.
      by destruct (H1 pre y l e) as [_ ?].
  - by apply (H2 l x post e).
Qed.

Lemma propagated_compositional :
  compositional (fun _ _ => True) (fun _ => True)
    (fun tr o (_ _ : globals) => propagated tr o).
Proof.
  split.
  - intros _ pre x post e Heq. by destruct pre.
  - intros e0 _ pre x post e Heq. by destruct pre.
  - intros upd _ _ pre x post e Heq. by destruct pre.
  - intros T c r _ _ pre x post e Heq Hx.
    destruct pre as [| y pre]; simpl in Heq.
    + injection Heq as <- <-. by rewrite Hx.
    + injection Heq as _ Heq. by destruct pre.
  - intros tr1 tr2 o _ _ _. apply propagated_seq.
Qed.

Lemma cell_straight_any (c : cell) :
  straight (fun _ _ => True) (fun _ => True) (cell_body c).
Proof. eapply straight_weaken; [| | apply cell_straight]; auto. Qed.

Lemma exec_propagated {World : Type}
    (handle : forall T : Type, ext T -> World -> outcome T * World)
    (c : cell) (g : globals) (w : World) :
  propagated (trace (exec handle c g w)) (failure (exec handle c g w)).
Proof.
  apply (exec_wp handle (fun tr o _ => propagated tr o)).
  apply (straight_wp propagated_compositional (cell_straight_any c)).
Qed.

Lemma session_propagated {World : Type}
    (handle : forall T : Type, ext T -> World -> outcome T * World)
    (steps : list (step World)) (g : globals) (w : World) :
  propagated (trace (session handle steps g w)) (failure (session handle steps g w)).
Proof.
  apply (session_compositional handle (fun tr o _ _ => propagated tr o)).
  - intros _ pre x post e Heq. by destruct pre.
  - intros. apply exec_propagated.
  - intros tr1 tr2 o _ _ _. apply propagated_seq.
Qed.

(** A run that did not fail made no call that raised. *)
Lemma propagated_quiet (tr : list entry) : propagated tr None -> quiet tr.
Proof.
  intros H. apply Forall_forall. intros x Hx.
  apply list_elem_of_split in Hx as [pre [post ->]].
  destruct (raised x) as [e |] eqn:Hr; [| done].
  by destruct (H pre x post e).
Qed.

(** C8.  No step of the notebook catches, transforms or recovers from an
    error: in every session and every environment, a call that raises is
    the last call made, the session ends with that very exception, and
    every cell is straight-line code (calls, name reads and writes in
    sequence, with no branch on an exception). *)
Theorem exceptions_propagate {World : Type}
    (handle : forall T : Type, ext T -> World -> outcome T * World)
    (steps : list (step World)) (g : globals) (w : World)
    (pre post : list entry) (x : entry) (e : exn) :
  trace (session handle steps g w) = pre ++ x :: post ->
  raised x = Some e ->
  post = [] /\ failure (session handle steps g w) = Some e
  /\ forall c, straight (fun _ _ => True) (fun _ => True) (cell_body c).
Proof.
  intros Heq Hx.
  destruct (session_propagated handle steps g w pre x post e Heq Hx) as [-> ->].
  repeat split. apply cell_straight_any.
Qed.

Lemma exceptions_propagate_witness :
  failure (session Env.handle (play Env.idle) fresh (Env.refused [Env.triangle]))
  = Some (Raised "RuntimeError" "request refused").
Proof.
  pose (r := session Env.handle (play Env.idle) fresh (Env.refused [Env.triangle])).
  refine (proj1 (proj2 (exceptions_propagate Env.handle (play Env.idle) fresh
            (Env.refused [Env.triangle])
            (take 29 (trace r)) []
            (Entry (icesat2_atl06p
                    (parms_record Env.triangle (SInt 3) (SInt 40) (SInt 20) (SInt 4)
                       [SStr "atl08_ground"] (SInt 1) (SFloat 20) (SInt 10)
                       (SFloat 3) (SFloat 5))
                    (SStr "nsidc-s3") (SStr "004"))
                  (inl (Raised "RuntimeError" "request refused")))
            (Raised "RuntimeError" "request refused")
            _ _))).
  - vm_compute. reflexivity.
  - reflexivity.
Defined.

(** ** The request cell *)

Lemma parms_record_flat (poly : region) srt len res cnf atl08_class maxi ats cnt
    H_min_win sigma_r_max :
  flat_parms poly (parms_record poly srt len res cnf atl08_class maxi ats cnt
                     H_min_win sigma_r_max).
Proof.
  split; unfold parms_record, scalar_at, list_at.
  - rewrite !dom_insert_L, dom_empty_L. unfold parm_keys. simpl. set_solver.
  - intros key v H.
    repeat (apply lookup_insert_Some in H as [[_ <-] | [_ H]]; [try done |]).
    + simpl. apply Forall_forall. intros x Hx.
      apply list_elem_of_fmap in Hx as (s & -> & _). done.
    + simpl. apply Forall_forall. intros x Hx.
      apply list_elem_of_fmap in Hx as (c & -> & _).
      unfold coord_value. intros k y Hy.
      repeat (apply lookup_insert_Some in Hy as [[_ <-] | [_ Hy]]; [done |]).
      by rewrite lookup_empty in Hy.
    + by rewrite lookup_empty in H.
  - by simplify_map_eq.
  - eexists. by simplify_map_eq.
  - eexists. by simplify_map_eq.
  - eexists. by simplify_map_eq.
  - eexists. by simplify_map_eq.
  - eexists. by simplify_map_eq.
  - eexists. by simplify_map_eq.
  - eexists. by simplify_map_eq.
  - eexists. by simplify_map_eq.
  - eexists. by simplify_map_eq.
  - eexists. by simplify_map_eq.
Qed.

Ltac not_quiet H :=
  unfold quiet in H;
  repeat match type of H with
         | Forall _ (_ :: _) => apply Forall_cons in H as [? H]
         | Forall _ (_ ++ _) => apply Forall_app in H as [? H]
         end;
  simplify_eq/=.

Lemma request_one_wp (sr : obj) (asset release : scalar) (poly : region) (g : globals) :
  SRwidgets g = Some sr ->
  wp (request_one asset release poly g) (request_one_post sr asset release poly g).
Proof.
  destruct g as [sr0 mm gd pm]. simpl. intros ->.
  unfold request_one, build_parms, SRwidgets_index, SRwidgets_value, SRwidgets_selection.
  do 10 (simpl; intros [e | ?];
    [ unfold request_one_post; simpl; repeat split; try done;
      intros Hq; not_quiet Hq | ]).
  simpl. destruct gd as [frame |]; simpl.
  - intros [e | t]; unfold request_one_post; simpl.
    + repeat split; try done.
      * intros Hq; not_quiet Hq.
      * apply Forall_singleton, parms_record_flat.
    + repeat split; try done.
      * intros _. eexists _, _. split; [| done].
        apply (request_block_intro sr asset release poly).
      * apply Forall_singleton, parms_record_flat.
  - unfold request_one_post; simpl. repeat split; try done.
    all: try (intros _ [? ?]; done).
Qed.

Lemma submitted_app (tr1 tr2 : list entry) :
  submitted (tr1 ++ tr2) = submitted tr1 ++ submitted tr2.
Proof. apply omap_app. Qed.

Lemma quiet_app (tr1 tr2 : list entry) : quiet (tr1 ++ tr2) <-> quiet tr1 /\ quiet tr2.
Proof. apply Forall_app. Qed.

Lemma request_loop_wp (sr : obj) (asset release : scalar) (regions : list region) :
  forall g, SRwidgets g = Some sr ->
  wp (for_each regions (request_one asset release) g)
     (request_loop_post sr asset release regions g).
Proof.
  induction regions as [| poly rest IH]; intros g Hsr.
  - simpl. unfold request_loop_post. simpl. repeat split; try done.
    intros _. exists [], []. split; [constructor |].
    split; [by destruct (gdf g) | done].
  - simpl. apply wp_bind.
    eapply wp_mono; [| apply (request_one_wp sr asset release poly g Hsr)].
    intros tr1 [[e | []] g1] (Hsr1 & Hm1 & Hdone1 & Hquiet1 & Hflat1); simpl in *.
    + refine (conj Hsr1 (conj Hm1 (conj _ (conj Hquiet1 _)))); [done |].
      eapply Forall_impl; [apply Hflat1 |]. simpl. intros d Hd.
      exists poly. split; [left | done].
    + destruct (Hdone1 eq_refl) as (d & t & Hblk & Hgdf1 & Hparms1).
      eapply wp_mono; [| apply (IH g1)]; [| congruence].
      intros tr2 [r2 g2] (Hsr2 & Hm2 & Hdone2 & Hquiet2 & Hflat2); simpl in *.
      refine (conj _ (conj _ (conj _ (conj _ _)))); simpl; try congruence.
      * intros Hr2. destruct (Hdone2 Hr2) as (ds & ts & Hblks & Hgdf2 & Hparms2).
        exists (d :: ds), (t :: ts). split; [by constructor |]. split.
        -- rewrite Hgdf2, Hgdf1. destruct (gdf g); reflexivity.
        -- rewrite Hparms2, Hparms1, last_cons. by destruct (last ds).
      * intros [Hq1 Hq2]%quiet_app Hg. apply Hquiet2; [done |].
        rewrite Hgdf1. destruct Hg as [frame ->]. by eexists.
      * rewrite submitted_app. apply Forall_app. split.
        -- eapply Forall_impl; [apply Hflat1 |]. simpl. intros d' Hd.
           exists poly. split; [left | done].
        -- eapply Forall_impl; [apply Hflat2 |]. simpl.
           intros d' (poly' & Hin & Hd). exists poly'. split; [by right | done].
Qed.

Lemma requests_wp (g : globals) : wp (cell_requests g) (requests_post g).
Proof.
  destruct g as [[sr |] mm gd pm]; unfold cell_requests, SRwidgets_value, m_regions.
  2: { simpl. unfold requests_post. simpl. repeat split; try done.
       all: try (intros _ [? ?]; done). }
  do 3 (simpl; intros [e | ?];
    [ unfold requests_post; simpl; repeat split; try done;
      intros Hq; not_quiet Hq | ]).
  simpl. destruct mm as [mm |]; simpl.
  2: { unfold requests_post. simpl. repeat split; try done.
       all: try (intros _ _ [? ?]; done). }
  intros [e | regions]; simpl.
  { unfold requests_post; simpl; repeat split; try done. intros Hq; not_quiet Hq. }
  eapply wp_mono; [| apply (request_loop_wp sr s s0 regions); reflexivity].
  intros tr [r g'] (Hsr & Hm & Hdone & Hquiet & Hflat); simpl in *.
  unfold requests_post. simpl. refine (conj _ (conj _ _)).
  - intros Hr. destruct (Hdone Hr) as (ds & ts & Hblks & Hgdf & Hparms).
    exists sr, mm, s, s0, t, regions, tr, ds, ts.
    repeat split; try done.
    destruct g' as [sr' mm' gd' pm']. simpl in *. by subst.
  - intros Hq _ _. apply Hquiet; [| by eexists].
    unfold quiet in *. by repeat apply Forall_cons in Hq as [_ Hq].
  - eapply Forall_impl; [exact Hflat |]. simpl.
    intros d (poly & _ & Hd). by exists poly.
Qed.

(** What the observers see in a completed loop. *)
Lemma request_block_observed {sr asset release poly blk d t} :
  request_block sr asset release poly blk d t ->
  flat_parms poly d /\ omap exchange blk = [(d, inr t)]
  /\ frames blk = [] /\ regions_read blk = []
  /\ stages blk = replicate 10 Assembling ++ [Called; Received]
  /\ figures blk = [] /\ quiet blk.
Proof.
  intros [srt len res cnf atl08_class maxi ats cnt H_min_win sigma_r_max t' d'].
  split; [apply parms_record_flat |].
  repeat split. unfold quiet. by repeat constructor.
Qed.

Lemma request_blocks_observed {sr asset release regions tr ds ts} :
  request_blocks sr asset release regions tr ds ts ->
  Forall2 flat_parms regions ds /\ length ts = length regions
  /\ omap exchange tr = zip ds (inr <$> ts)
  /\ frames tr = [] /\ regions_read tr = []
  /\ stages tr
     = flat_map (fun _ => replicate 10 Assembling ++ [Called; Received]) regions
  /\ figures tr = [] /\ quiet tr.
Proof.
  induction 1 as [| poly rest blk d t tr ds ts Hblk Hrest IH].
  - repeat split; constructor.
  - destruct (request_block_observed Hblk) as (Hd & Hx & Hf & Hr & Hfl & Hfig & Hq).
    destruct IH as (IHd & IHlen & IHx & IHf & IHr & IHfl & IHfig & IHq).
    unfold frames, regions_read, stages, figures in *.
    rewrite flat_map_app, !omap_app, Hx, Hf, Hr, Hfl, Hfig, IHx, IHf, IHr, IHfl, IHfig.
    repeat split; simpl; try done.
    + by constructor.
    + by rewrite IHlen.
    + by apply quiet_app.
Qed.

Lemma submitted_exchange (tr : list entry) : submitted tr = fst <$> omap exchange tr.
Proof.
  induction tr as [| e tr IH]; [done |].
  change (submitted (e :: tr))
    with (match fst <$> exchange e with
          | Some d => d :: submitted tr
          | None => submitted tr
          end).
  rewrite IH. simpl. by destruct (exchange e).
Qed.

Lemma answers_exchange (tr : list entry) :
  answers tr =
  omap (fun x : gmap string value * outcome table =>
          match snd x with inr t => Some t | inl _ => None end) (omap exchange tr).
Proof.
  induction tr as [| e tr IH]; [done |].
  change (answers (e :: tr))
    with (match received e with
          | Some t => t :: answers tr
          | None => answers tr
          end).
  rewrite IH. unfold received. simpl. by destruct (exchange e) as [[d [x | t]] |].
Qed.

Lemma zip_answers (ds : list (gmap string value)) (ts : list table) :
  length ts = length ds ->
  fst <$> zip ds (inr (A := exn) <$> ts) = ds
  /\ omap (fun x : gmap string value * outcome table =>
            match snd x with inr t => Some t | inl _ => None end)
          (zip ds (inr <$> ts)) = ts.
Proof.
  revert ts. induction ds as [| d ds IH]; intros [| t ts] Hlen; try done.
  simpl in Hlen. destruct (IH ts) as [IH1 IH2]; [lia |].
  split.
  - simpl. f_equal. exact IH1.
  - simpl. f_equal. exact IH2.
Qed.

Section Requests.

Variable World : Type.
Variable handle : forall T : Type, ext T -> World -> outcome T * World.

(** A cell makes no call an observer is looking for when none of its
    kinds of calls is one. *)
Lemma exec_unobserved {B : Type} (f : entry -> option B) (c : cell)
    (g : globals) (w : World) :
  (forall T (x : ext T) r, may_call c x = true -> f (Entry x r) = None) ->
  omap f (trace (exec handle c g w)) = [].
Proof.
  intros Hf.
  apply (exec_straight handle (fun tr _ _ _ => omap f tr = [])).
  split; try done.
  - intros T x r _ Hx. simpl. by rewrite (Hf T x r Hx).
  - intros tr1 tr2 _ _ _ _ H1 H2. by rewrite omap_app, H1, H2.
Qed.

Lemma requests_run (g : globals) (w : World) :
  let r := exec handle Requests g w in
  (failure r = None ->
   exists sr mm asset release empty regions loop ds ts,
     SRwidgets g = Some sr /\ m g = Some mm
     /\ trace r = request_prologue sr mm asset release empty regions ++ loop
     /\ request_blocks sr asset release regions loop ds ts
     /\ names r = {| SRwidgets := Some sr; m := Some mm;
                     gdf := Some (fold_left append ts empty);
                     parms := from_option Some (parms g) (last ds) |})
  /\ (quiet (trace r) -> is_Some (SRwidgets g) -> is_Some (m g) -> failure r = None)
  /\ Forall (fun d => exists poly, flat_parms poly d) (submitted (trace r)).
Proof.
  apply (exec_wp handle (fun tr o g' =>
    (o = None ->
     exists sr mm asset release empty regions loop ds ts,
       SRwidgets g = Some sr /\ m g = Some mm
       /\ tr = request_prologue sr mm asset release empty regions ++ loop
       /\ request_blocks sr asset release regions loop ds ts
       /\ g' = {| SRwidgets := Some sr; m := Some mm;
                  gdf := Some (fold_left append ts empty);
                  parms := from_option Some (parms g) (last ds) |})
    /\ (quiet tr -> is_Some (SRwidgets g) -> is_Some (m g) -> o = None)
    /\ Forall (fun d => exists poly, flat_parms poly d) (submitted tr))).
  eapply wp_mono; [| apply requests_wp].
  intros tr [[e | []] g'] (Hdone & Hquiet & Hflat); simpl in *.
  - refine (conj _ (conj _ Hflat)); [done |].
    intros Hq Hsr Hm. by specialize (Hquiet Hq Hsr Hm).
  - refine (conj _ (conj _ Hflat)); [| done].
    intros _. by apply Hdone.
Qed.

Lemma submitted_elsewhere (c : cell) (g : globals) (w : World) :
  c <> Requests -> submitted (trace (exec handle c g w)) = [].
Proof.
  intros Hc. apply exec_unobserved.
  intros T x r. destruct c; try done; by destruct x.
Qed.

Lemma session_submitted_flat (steps : list (step World)) (g : globals) (w : World) :
  Forall (fun d => exists poly, flat_parms poly d)
         (submitted (trace (session handle steps g w))).
Proof.
  apply (session_compositional handle
           (fun tr _ _ _ => Forall (fun d => exists poly, flat_parms poly d)
                                   (submitted tr))).
  - intros _. constructor.
  - intros c g0 w0. destruct (decide (c = Requests)) as [-> | Hc].
    + apply requests_run.
    + rewrite (submitted_elsewhere c g0 w0 Hc). constructor.
  - intros tr1 tr2 _ _ _ _ H1 H2. rewrite submitted_app. by apply Forall_app.
Qed.

End Requests.

Arguments exec_unobserved {World} handle {B} f c g w _.
Arguments requests_run {World} handle g w.
Arguments session_submitted_flat {World} handle steps g w.

(** ** Records assembled from the widget reads *)

Lemma parms_record_from (poly : region) srt len res cnf atl08_class maxi ats cnt
    H_min_win sigma_r_max :
  parms_from poly srt len res cnf atl08_class maxi ats cnt H_min_win sigma_r_max
    (parms_record poly srt len res cnf atl08_class maxi ats cnt H_min_win sigma_r_max).
Proof.
  split; unfold parms_record; try by simplify_map_eq.
Qed.

Lemma no_request_assembled (tr : list entry) :
  omap exchange tr = [] -> assembled_before tr.
Proof.
  intros Hnone pre d asset release r post ->.
  rewrite omap_app in Hnone. simpl in Hnone.
  by apply app_eq_nil in Hnone as [_ ?].
Qed.

Lemma assembled_app (tr1 tr2 : list entry) :
  assembled_before tr1 -> assembled_before tr2 -> assembled_before (tr1 ++ tr2).
Proof.
  intros H1 H2 pre d asset release r post Heq.
  apply app_eq_app in Heq as [l [[-> Hl] | [-> Hl]]].
  - destruct l as [| x l].
    + simpl in Hl. symmetry in Hl.
      destruct (H2 [] d asset release r post Hl)
        as (before & sr & poly & srt & len & res & cnf & cls & maxi & ats & cnt
            & win & sig & Hpre & Hd).
      exists (pre ++ before), sr, poly, srt, len, res, cnf, cls, maxi, ats, cnt, win, sig.
      split; [| done]. by rewrite <- app_assoc, <- Hpre, app_nil_r.
    + simpl in Hl. injection Hl as <- ->.
      by apply (H1 pre d asset release r l).
  - destruct (H2 l d asset release r post Hl)
      as (before & sr & poly & srt & len & res & cnf & cls & maxi & ats & cnt
          & win & sig & -> & Hd).
    exists (tr1 ++ before), sr, poly, srt, len, res, cnf, cls, maxi, ats, cnt, win, sig.
    split; [| done]. by rewrite <- app_assoc.
Qed.

(** The only entry of a list that is a request sits where it is. *)
Lemma request_position (l : list entry) (y x : entry) (pre post : list entry) :
  omap exchange l = [] -> is_Some (exchange x) ->
  l ++ [y] = pre ++ x :: post -> pre = l /\ x = y /\ post = [].
Proof.
  revert pre. induction l as [| a l IH]; intros pre Hl Hx Heq.
  - destruct pre as [| p pre]; simpl in Heq.
    + by injection Heq as <- <-.
    + injection Heq as _ Heq. by destruct pre.
  - destruct pre as [| p pre]; simpl in Heq.
    + injection Heq as <- _. simpl in Hl.
      destruct Hx as [? Hx]. by rewrite Hx in Hl.
    + injection Heq as <- Heq. simpl in Hl.
      destruct (exchange a); [done |].
      destruct (IH pre Hl Hx Heq) as (-> & -> & ->). done.
Qed.

Lemma block_assembled (sr : obj) (asset release : scalar) (poly : region)
    srt len res cnf atl08_class maxi ats cnt H_min_win sigma_r_max (r : outcome table) :
  assembled_before
    (assembly sr srt len res cnf atl08_class maxi ats cnt H_min_win sigma_r_max
     ++ [Entry (icesat2_atl06p
                  (parms_record poly srt len res cnf atl08_class maxi ats cnt
                     H_min_win sigma_r_max) asset release) r]).
Proof.
  intros pre d a v r' post Heq.
  apply request_position in Heq as (-> & Hx & ->); [| done | by eexists].
  apply (f_equal exchange) in Hx. simpl in Hx. injection Hx as -> _.
  exists [], sr, poly, srt, len, res, cnf, atl08_class, maxi, ats, cnt, H_min_win,
    sigma_r_max.
  split; [done |]. apply parms_record_from.
Qed.

Lemma request_one_assembled (asset release : scalar) (poly : region) (g : globals) :
  wp (request_one asset release poly g) (fun tr _ => assembled_before tr).
Proof.
  destruct g as [[sr |] mm gd pm];
    unfold request_one, build_parms, SRwidgets_index, SRwidgets_value, SRwidgets_selection.
  2: { simpl. by apply no_request_assembled. }
  do 10 (simpl; intros [e | ?]; [by apply no_request_assembled |]).
  simpl. destruct gd as [frame |]; simpl.
  - intros r. destruct r as [e | t]; simpl; apply (block_assembled sr asset release poly).
  - by apply no_request_assembled.
Qed.

Lemma request_loop_assembled (asset release : scalar) (regions : list region) :
  forall g, wp (for_each regions (request_one asset release) g)
              (fun tr _ => assembled_before tr).
Proof.
  induction regions as [| poly rest IH]; intros g.
  - simpl. by apply no_request_assembled.
  - simpl. apply wp_bind.
    eapply wp_mono; [| apply request_one_assembled].
    intros tr1 [[e | []] g1] H1; simpl.
    + done.
    + eapply wp_mono; [| apply (IH g1)].
      intros tr2 x H2. simpl. by apply assembled_app.
Qed.

Lemma requests_assembled (g : globals) :
  wp (cell_requests g) (fun tr _ => assembled_before tr).
Proof.
  destruct g as [[sr |] mm gd pm]; unfold cell_requests, SRwidgets_value, m_regions.
  2: { simpl. by apply no_request_assembled. }
  do 3 (simpl; intros [e | ?]; [by apply no_request_assembled |]).
  simpl. destruct mm as [mm |]; simpl.
  2: { by apply no_request_assembled. }
  intros [e | regions]; simpl.
  { by apply no_request_assembled. }
  eapply wp_mono; [| apply request_loop_assembled].
  intros tr x H. simpl.
  apply (assembled_app [_; _; _; _] tr); [by apply no_request_assembled | done].
Qed.

Section Assembled.

Variable World : Type.
Variable handle : forall T : Type, ext T -> World -> outcome T * World.

Lemma exec_assembled (c : cell) (g : globals) (w : World) :
  assembled_before (trace (exec handle c g w)).
Proof.
  destruct (decide (c = Requests)) as [-> | Hc].
  - apply (exec_wp handle (fun tr _ _ => assembled_before tr)).
    eapply wp_mono; [| apply requests_assembled]. done.
  - apply no_request_assembled. apply exec_unobserved.
    intros T x r. destruct c; try done; by destruct x.
Qed.

Lemma session_assembled (steps : list (step World)) (g : globals) (w : World) :
  assembled_before (trace (session handle steps g w)).
Proof.
  apply (session_compositional handle (fun tr _ _ _ => assembled_before tr)).
  - intros _. by apply no_request_assembled.
  - intros c g0 w0. apply exec_assembled.
  - intros tr1 tr2 _ _ _ _. apply assembled_app.
Qed.

End Assembled.

Arguments session_assembled {World} handle steps g w.

(** C1.  In every environment, every parameter record submitted to the
    processing endpoint in a session is the flat record of some region: a
    mapping with exactly the keys poly, srt, len, res, cnf, atl08_class,
    maxi, ats, cnt, H_min_win and sigma_r_max, none of whose values nests
    deeper than a list of mappings of scalars (the region's boundary under
    poly, a list of classes under atl08_class, scalars under the others).
    Its values are those read from the widgets in the same turn of the
    loop: every request comes right after the ten answered reads of the
    surface type (its index), length, step, confidence, land classes,
    iteration, spread, count, window and sigma widgets, and holds their
    answers under srt, len, res, cnf, atl08_class, maxi, ats, cnt,
    H_min_win and sigma_r_max.  When the request cell completes, the
    records submitted are those of the regions read from the map, one per
    region and in their order. *)
Theorem parameter_record_flat {World : Type}
    (handle : forall T : Type, ext T -> World -> outcome T * World) :
  (forall steps g w,
      Forall (fun d => exists poly, flat_parms poly d)
             (submitted (trace (session handle steps g w))))
  /\ (forall steps g w, assembled_before (trace (session handle steps g w)))
  /\ (forall g w,
      failure (exec handle Requests g w) = None ->
      exists regions,
        regions_read (trace (exec handle Requests g w)) = [regions]
        /\ Forall2 flat_parms regions (submitted (trace (exec handle Requests g w)))).
Proof.
  split; [apply session_submitted_flat |]. split; [apply session_assembled |].
  intros g w Hdone.
  destruct (requests_run handle g w) as (Hrun & _ & _).
  destruct (Hrun Hdone) as (sr & mm & asset & release & empty & regions & loop
                            & ds & ts & _ & _ & Htr & Hblks & _).
  destruct (request_blocks_observed Hblks)
    as (Hflat & Hlen & Hx & _ & Hregions & _).
  exists regions. rewrite Htr. split.
  - unfold regions_read in *. rewrite omap_app, Hregions. reflexivity.
  - rewrite submitted_app, (submitted_exchange loop), Hx.
    destruct (zip_answers ds ts) as [-> _]; [| exact Hflat].
    rewrite Hlen. by eapply Forall2_length.
Qed.

Lemma parameter_record_flat_witness :
  exists regions,
    regions_read (trace (exec Env.handle Requests
                           {| SRwidgets := Some 0; m := Some 2; gdf := None; parms := None |}
                           (Env.sample [Env.triangle; Env.triangle]))) = [regions]
    /\ Forall2 flat_parms regions
         (submitted (trace (exec Env.handle Requests
                           {| SRwidgets := Some 0; m := Some 2; gdf := None; parms := None |}
                           (Env.sample [Env.triangle; Env.triangle])))).
Proof.
  apply (proj2 (proj2 (parameter_record_flat Env.handle))).
  vm_compute. reflexivity.
Defined.

Lemma fold_append (ts : list table) (frame : table) :
  fold_left append ts frame = frame ++ concat ts.
Proof.
  revert frame. induction ts as [| t ts IH]; intros frame; simpl.
  - by rewrite app_nil_r.
  - rewrite IH. unfold append. by rewrite app_assoc.
Qed.

(** C2.  When the request cell completes, the table bound to [gdf] is the
    frame answered by [__emptyframe()] with the tables answered by the
    endpoint appended one after the other, that is the concatenation of
    the per-region tables in the order of the regions (one exchange per
    region, each carrying that region's boundary); with no region drawn
    no request is made and [gdf] is the empty frame.  The cell completes
    whenever [SRwidgets] and [m] are bound and no call raises. *)
Theorem result_table_is_fold {World : Type}
    (handle : forall T : Type, ext T -> World -> outcome T * World)
    (g : globals) (w : World) :
  let r := exec handle Requests g w in
  (failure r = None ->
   exists empty regions,
     frames (trace r) = [empty] /\ regions_read (trace r) = [regions]
     /\ gdf (names r) = Some (fold_left append (answers (trace r)) empty)
     /\ gdf (names r) = Some (empty ++ concat (answers (trace r)))
     /\ omap exchange (trace r) = zip (submitted (trace r)) (inr <$> answers (trace r))
     /\ Forall2 (fun poly d => d !! "poly" = Some (region_value poly))
                regions (submitted (trace r))
     /\ length (answers (trace r)) = length regions
     /\ (regions = [] -> submitted (trace r) = [] /\ gdf (names r) = Some empty))
  /\ (is_Some (SRwidgets g) -> is_Some (m g) -> quiet (trace r) -> failure r = None).
Proof.
  intros r. destruct (requests_run handle g w) as (Hrun & Htotal & _).
  fold r in Hrun, Htotal. split; [| by auto].
  intros Hdone.
  destruct (Hrun Hdone) as (sr & mm & asset & release & empty & regions & loop
                            & ds & ts & _ & _ & Htr & Hblks & Hnames).
  destruct (request_blocks_observed Hblks)
    as (Hflat & Hlen & Hx & Hframes & Hregions & _).
  assert (Hlen' : length ts = length ds)
    by (rewrite Hlen; by eapply Forall2_length).
  destruct (zip_answers ds ts Hlen') as [Hds Hts].
  assert (Hsub : submitted (trace r) = ds).
  { rewrite Htr, submitted_app, (submitted_exchange loop), Hx, Hds. reflexivity. }
  assert (Hans : answers (trace r) = ts).
  { rewrite answers_exchange, Htr, omap_app, Hx. simpl. exact Hts. }
  assert (Hex : omap exchange (trace r) = zip ds (inr <$> ts)).
  { rewrite Htr, omap_app, Hx. reflexivity. }
  assert (Hfr : frames (trace r) = [empty]).
  { unfold frames in *. rewrite Htr, omap_app, Hframes. reflexivity. }
  assert (Hrr : regions_read (trace r) = [regions]).
  { unfold regions_read in *. rewrite Htr, omap_app, Hregions. reflexivity. }
  exists empty, regions. rewrite Hsub, Hans, Hnames, Hex, Hfr, Hrr. simpl.
  split; [done |]. split; [done |]. split; [done |].
  split; [by rewrite fold_append |]. split; [done |].
  split; [| split; [exact Hlen |]].
  - eapply Forall2_impl; [exact Hflat |]. intros poly d Hd. apply Hd.
  - intros ->. apply Forall2_nil_inv_l in Hflat as ->. by destruct ts.
Qed.

Lemma result_table_is_fold_witness :
  let r := exec Env.handle Requests
             {| SRwidgets := Some 0; m := Some 2; gdf := None; parms := None |}
             (Env.sample [Env.triangle; Env.triangle]) in
  exists empty regions,
    frames (trace r) = [empty] /\ regions_read (trace r) = [regions]
    /\ gdf (names r) = Some (fold_left append (answers (trace r)) empty)
    /\ gdf (names r) = Some (empty ++ concat (answers (trace r)))
    /\ omap exchange (trace r) = zip (submitted (trace r)) (inr <$> answers (trace r))
    /\ Forall2 (fun poly d => d !! "poly" = Some (region_value poly))
               regions (submitted (trace r))
    /\ length (answers (trace r)) = length regions
    /\ (regions = [] -> submitted (trace r) = [] /\ gdf (names r) = Some empty).
Proof.
  apply (proj1 (result_table_is_fold Env.handle
           {| SRwidgets := Some 0; m := Some 2; gdf := None; parms := None |}
           (Env.sample [Env.triangle; Env.triangle]))).
  vm_compute. reflexivity.
Defined.

Example no_region_no_request :
  let r := exec Env.handle Requests
             {| SRwidgets := Some 0; m := Some 2; gdf := None; parms := None |}
             (Env.sample []) in
  submitted (trace r) = [] /\ gdf (names r) = Some [] /\ failure r = None.
Proof. vm_compute. done. Qed.

(** ** The plotting cell *)

Ltac plot_fails :=
  unfold plot_post; simpl; repeat split; try done;
  try (intros Hq; not_quiet Hq).

Lemma ground_tracks_wp (g : globals) :
  wp (plot_ground_tracks g)
     (plot_post (fun tr => exists frame, gdf g = Some frame /\ ground_tracks_run frame tr)
                (is_Some (gdf g)) g).
Proof.
  destruct g as [sr mm [frame |] pm];
    unfold plot_ground_tracks, PlateCarree, Geodetic, add_land_and_lakes, strong_frame.
  - do 2 (simpl; intros [e | ?]; [plot_fails |]).
    destruct p as [f1 ax1].
    do 13 (simpl; intros [e | ?]; [plot_fails |]).
    simpl. unfold plot_post. simpl. repeat split; try done.
    intros _. exists frame. split; [done |]. constructor.
  - do 2 (simpl; intros [e | ?]; [plot_fails |]).
    simpl. unfold plot_post. simpl. repeat split; try done.
    all: try (intros _ [? ?]; done).
Qed.

Lemma outline_wp (ax2 : obj) (poly : region) (g : globals) :
  wp (outline ax2 poly g) (plot_post (outline_run ax2 poly) True g).
Proof.
  unfold outline, PlateCarree.
  simpl; intros [e | [lons lats]]; [plot_fails |].
  do 2 (simpl; intros [e | ?]; [plot_fails |]).
  simpl. unfold plot_post. simpl. repeat split; try done.
Qed.

Lemma outlines_wp (ax2 : obj) (regions : list region) (g : globals) :
  wp (for_each regions (outline ax2) g) (plot_post (outlines_run ax2 regions) True g).
Proof.
  induction regions as [| poly rest IH].
  - unfold plot_post. simpl. repeat split; try done. intros _. constructor.
  - change (for_each (poly :: rest) (outline ax2) g)
      with (bind (outline ax2 poly) (fun _ => for_each rest (outline ax2)) g).
    apply wp_bind. eapply wp_mono; [| apply outline_wp].
    intros tr1 [[e | []] g1] (Hg1 & Hdone1 & Hquiet1); simpl in *; subst g1.
    + split; [done |]. split; [done |]. intros Hq _. by apply Hquiet1.
    + eapply wp_mono; [| apply IH].
      intros tr2 [r2 g2] (Hg2 & Hdone2 & Hquiet2); simpl in *.
      split; [done |]. split.
      * intros Hr2. constructor; auto.
      * intros [Hq1 Hq2]%quiet_app _. by apply Hquiet2.
Qed.

Lemma heights_wp (g : globals) :
  wp (plot_heights g)
     (plot_post (fun tr => exists frame mm regions,
                   gdf g = Some frame /\ m g = Some mm
                   /\ heights_run frame mm regions tr)
                (is_Some (gdf g) /\ is_Some (m g)) g).
Proof.
  destruct g as [sr mm [frame |] pm];
    unfold plot_heights, PlateCarree, add_land_and_lakes, strong_frame, m_regions.
  2: { do 2 (simpl; intros [e | ?]; [plot_fails |]).
       simpl. unfold plot_post. simpl. repeat split; try done.
       all: try (intros _ [[? ?] _]; done). }
  do 2 (simpl; intros [e | ?]; [plot_fails |]).
  destruct p as [f2 ax2].
  do 2 (simpl; intros [e | ?]; [plot_fails |]).
  simpl. destruct mm as [mm |]; simpl.
  2: { unfold plot_post. simpl. repeat split; try done.
       all: try (intros _ [_ [? ?]]; done). }
  intros [e | regions]; [plot_fails |].
  simpl. apply wp_pbind. eapply wp_mono; [| apply (outlines_wp ax2 regions)].
  intros tr1 [[e | []] g1] (Hg1 & Hdone1 & Hquiet1); simpl in *; subst g1.
  { unfold plot_post. simpl. repeat split; try done.
    intros Hq _. not_quiet Hq. by apply Hquiet1. }
  specialize (Hdone1 eq_refl).
  do 12 (simpl; intros [e | ?]; [plot_fails |]).
  simpl. unfold plot_post. simpl. repeat split; try done.
  intros _. exists frame, mm, regions. split; [done |]. split; [done |].
  by econstructor.
Qed.

Lemma plots_wp (g : globals) :
  wp (cell_plots g)
     (plot_post (fun tr => exists frame mm regions,
                   gdf g = Some frame /\ m g = Some mm /\ plots_run frame mm regions tr)
                (is_Some (gdf g) /\ is_Some (m g)) g).
Proof.
  unfold cell_plots. apply wp_bind.
  eapply wp_mono; [| apply ground_tracks_wp].
  intros tr1 [[e | []] g1] (Hg1 & Hdone1 & Hquiet1);
    simpl in Hg1, Hdone1, Hquiet1; subst g1; cbn [fst snd].
  { split; [done |]. split; [done |]. intros Hq [Hg _]. by apply Hquiet1. }
  destruct (Hdone1 eq_refl) as (frame & Hframe & Hrun1).
  apply wp_bind. eapply wp_mono; [| apply heights_wp].
  intros tr2 [[e | []] g2] (Hg2 & Hdone2 & Hquiet2);
    simpl in Hg2, Hdone2, Hquiet2; subst g2; cbn [fst snd].
  { split; [done |]. split; [done |].
    intros [_ Hq]%quiet_app Hg. by apply Hquiet2. }
  destruct (Hdone2 eq_refl) as (frame' & mm & regions & Hframe' & Hmm & Hrun2).
  assert (frame' = frame) as -> by congruence.
  intros [e | []]; unfold plot_post; simpl.
  - split; [done |]. split; [done |]. intros Hq. not_quiet Hq.
  - split; [done |]. split; [| done].
    intros _. exists frame, mm, regions. by repeat split.
Qed.

Lemma ground_tracks_observed {frame tr} :
  ground_tracks_run frame tr ->
  figures tr = [1%Z] /\ methods tr = ground_tracks_methods
  /\ regions_read tr = [] /\ stages tr = [Plotted].
Proof. intros []. by repeat split. Qed.

Lemma outlines_observed {ax2 regions tr} :
  outlines_run ax2 regions tr ->
  figures tr = [] /\ methods tr = replicate (length regions) "plot"
  /\ regions_read tr = [].
Proof.
  induction 1 as [| poly rest blk tr [lons lats pc a] Hrest (IH1 & IH2 & IH3)];
    [done |].
  unfold figures, methods, regions_read in *.
  rewrite !omap_app, IH1, IH2, IH3. done.
Qed.

Lemma outlines_stages {ax2 regions tr} :
  outlines_run ax2 regions tr -> stages tr = [].
Proof.
  induction 1 as [| poly rest blk tr [lons lats pc a] Hrest IH]; [done |].
  unfold stages in *. by rewrite flat_map_app, IH.
Qed.

Lemma heights_stages {frame mm regions tr} :
  heights_run frame mm regions tr -> stages tr = [Plotted].
Proof.
  intros [pc f2 ax2 pc' sc loop b1 b2 cbar_ax cbar b3 b4 b5 b6 b7 b8 b9 b10 Hloop].
  pose proof (outlines_stages Hloop) as H.
  unfold stages in *. by rewrite !flat_map_app, H.
Qed.

Lemma heights_observed {frame mm regions tr} :
  heights_run frame mm regions tr ->
  figures tr = [2%Z] /\ methods tr = heights_methods (length regions)
  /\ regions_read tr = [regions].
Proof.
  intros [pc f2 ax2 pc' sc loop b1 b2 cbar_ax cbar b3 b4 b5 b6 b7 b8 b9 b10 Hloop].
  destruct (outlines_observed Hloop) as (H1 & H2 & H3).
  unfold figures, methods, regions_read in *.
  rewrite !omap_app, H1, H2, H3. done.
Qed.

Lemma plots_observed {frame mm regions tr} :
  plots_run frame mm regions tr ->
  figures tr = [1%Z; 2%Z]
  /\ methods tr = ground_tracks_methods ++ heights_methods (length regions) ++ ["plt.show"]
  /\ regions_read tr = [regions] /\ stages tr = [Plotted; Plotted].
Proof.
  intros [tr1 tr2 H1 H2].
  destruct (ground_tracks_observed H1) as (F1 & M1 & R1 & P1).
  destruct (heights_observed H2) as (F2 & M2 & R2).
  pose proof (heights_stages H2) as P2.
  unfold figures, methods, regions_read, stages in *.
  rewrite !flat_map_app, !omap_app, F1, F2, M1, M2, R1, R2, P1, P2.
  by repeat split.
Qed.

(** ** The other cells *)

Lemma options_wp (g : globals) : wp (cell_options g) (cell_post options_run g).
Proof.
  unfold cell_options, cell_post.
  do 4 (simpl; intros [e | ?]; [done |]).
  simpl. intros _. destruct u, u0. constructor.
Qed.

Lemma map_wp (g : globals) : wp (cell_map g) (cell_post map_run g).
Proof.
  destruct g as [[sr |] mm gd pm]; unfold cell_map, cell_post, SRwidgets_value;
    [| done].
  do 3 (simpl; intros [e | ?]; [done |]).
  simpl. intros _. destruct u. by constructor.
Qed.

Lemma load_wp (g : globals) : wp (cell_load g) (cell_post load_run g).
Proof.
  destruct g as [[sr |] mm gd pm];
    unfold cell_load, cell_post, SRwidgets_file, SRwidgets_format; [| done].
  do 3 (simpl; intros [e | ?]; [done |]).
  simpl. intros _. by constructor.
Qed.

Ltac run_cell :=
  repeat (cbn;
    first [ done
          | progress (intros [? | ?])
          | match goal with
            | |- context [match ?d !! ?k with _ => _ end] =>
                destruct (d !! k) eqn:?
            | |- context [getitem ?v _] => is_var v; destruct v
            end ]).

Lemma save_wp (g : globals) : wp (cell_save g) (cell_post save_run g).
Proof.
  destruct g as [[sr |] [mm |] [frame |] [d |]];
    unfold cell_save, cell_post, parms_setitem, SRwidgets_file, SRwidgets_format,
      m_regions;
    run_cell.
  intros _. destruct u. unfold set_parms. simpl.
  by eapply (save_intro {| SRwidgets := Some sr; m := Some mm;
                           gdf := Some frame; parms := Some d |}).
Qed.

Lemma save_unbound_wp (g : globals) :
  parms g = None -> wp (cell_save g) save_unbound_post.
Proof.
  destruct g as [sr mm gd pm]. simpl. intros ->.
  unfold cell_save, save_unbound_post, parms_setitem.
  run_cell.
  all: repeat split; try done.
  all: intros dv' dc' v' [= <-] ? ?; by simplify_eq.
Qed.

(** ** Completed cells and completed runs *)

Section Completed.

Variable World : Type.
Variable handle : forall T : Type, ext T -> World -> outcome T * World.

Lemma exec_completed (shape : list entry -> globals -> globals -> Prop)
    (c : cell) (g : globals) (w : World) :
  wp (cell_body c g) (cell_post shape g) ->
  failure (exec handle c g w) = None ->
  shape (trace (exec handle c g w)) g (names (exec handle c g w)).
Proof.
  intros Hwp.
  apply (exec_wp handle (fun tr o g' => o = None -> shape tr g g')).
  eapply wp_mono; [| exact Hwp].
  intros tr [[e | []] g'] H; simpl; [done |]. intros _. by apply H.
Qed.

Lemma options_completed (g : globals) (w : World) :
  failure (exec handle Options g w) = None ->
  options_run (trace (exec handle Options g w)) g (names (exec handle Options g w)).
Proof. apply exec_completed, options_wp. Qed.

Lemma map_completed (g : globals) (w : World) :
  failure (exec handle RegionMap g w) = None ->
  map_run (trace (exec handle RegionMap g w)) g (names (exec handle RegionMap g w)).
Proof. apply exec_completed, map_wp. Qed.

Lemma save_completed (g : globals) (w : World) :
  failure (exec handle Save g w) = None ->
  save_run (trace (exec handle Save g w)) g (names (exec handle Save g w)).
Proof. apply exec_completed, save_wp. Qed.

Lemma load_completed (g : globals) (w : World) :
  failure (exec handle Load g w) = None ->
  load_run (trace (exec handle Load g w)) g (names (exec handle Load g w)).
Proof. apply exec_completed, load_wp. Qed.

Lemma plots_completed (g : globals) (w : World) :
  failure (exec handle Plots g w) = None ->
  names (exec handle Plots g w) = g
  /\ exists frame mm regions,
       gdf g = Some frame /\ m g = Some mm
       /\ plots_run frame mm regions (trace (exec handle Plots g w)).
Proof.
  apply (exec_wp handle (fun tr o g' =>
    o = None -> g' = g /\ exists frame mm regions,
       gdf g = Some frame /\ m g = Some mm /\ plots_run frame mm regions tr)).
  eapply wp_mono; [| apply plots_wp].
  intros tr [[e | []] g'] (Hg & Hdone & _); simpl in *; [done |].
  intros _. split; [done |]. by apply Hdone.
Qed.

(** The names a cell does not assign keep their binding. *)
Lemma exec_keeps {A : Type} (field : globals -> option A) (c : cell)
    (g : globals) (w : World) :
  (forall upd g0, writes c upd -> field (upd g0) = field g0) ->
  field (names (exec handle c g w)) = field g.
Proof.
  intros Hkeep.
  apply (exec_straight handle (fun _ _ g0 g1 => field g1 = field g0)).
  split; try done.
  intros _ _ _ g0 g1 g2 H1 H2. congruence.
Qed.

Lemma exec_keeps_parms (c : cell) (g : globals) (w : World) :
  c <> Requests -> c <> Save -> parms (names (exec handle c g w)) = parms g.
Proof.
  intros H1 H2. apply exec_keeps. intros upd g0 Hupd. by destruct Hupd.
Qed.

Lemma exec_keeps_gdf (c : cell) (g : globals) (w : World) :
  c <> Requests -> c <> Load -> gdf (names (exec handle c g w)) = gdf g.
Proof.
  intros H1 H2. apply exec_keeps. intros upd g0 Hupd. by destruct Hupd.
Qed.

(** A session that plays cells in order and does not fail ran each. *)
Lemma play_ran (user : cell -> World -> World) (cells : list cell) :
  forall g w,
    let s := session handle (flat_map (fun c => [User (user c); Exec c]) cells) g w in
    failure s = None -> ran handle user cells g w (trace s) (names s) (world s).
Proof.
  induction cells as [| c rest IH]; intros g w.
  - intros s _. constructor.
  - change (flat_map (fun c => [User (user c); Exec c]) (c :: rest))
      with (User (user c) :: Exec c
              :: flat_map (fun c => [User (user c); Exec c]) rest).
    rewrite session_user.
    destruct (failure (exec handle c g (user c w))) as [e |] eqn:Hf.
    + rewrite (session_exec_failed handle c _ g (user c w) e Hf). simpl.
      by rewrite Hf.
    + rewrite (session_exec_done handle c _ g (user c w) Hf). simpl.
      intros Hrest.
      apply (ran_cons handle user c rest g w _ _ _ _ eq_refl Hf).
      by apply IH.
Qed.

Lemma ran_session (user : cell -> World -> World) (cells : list cell) :
  forall g w tr g' w',
    ran handle user cells g w tr g' w' ->
    session handle (flat_map (fun c => [User (user c); Exec c]) cells) g w
    = {| trace := tr; failure := None; names := g'; world := w' |}.
Proof.
  induction 1 as [| c rest g w r tr g' w' -> Hf Hrest IH]; [done |].
  simpl. rewrite Hf. by rewrite IH.
Qed.

End Completed.

Arguments plots_completed {World} handle g w _.
Arguments options_completed {World} handle g w _.
Arguments map_completed {World} handle g w _.
Arguments save_completed {World} handle g w _.
Arguments load_completed {World} handle g w _.
Arguments exec_keeps_parms {World} handle c g w _ _.
Arguments exec_keeps_gdf {World} handle c g w _ _.
Arguments play_ran {World} handle user cells g w _.
Arguments ran_session {World} handle user cells g w tr g' w' _.

(** ** Figures *)

Lemma figures_elsewhere {World : Type}
    (handle : forall T : Type, ext T -> World -> outcome T * World)
    (c : cell) (g : globals) (w : World) :
  c <> Plots -> figures (trace (exec handle c g w)) = [].
Proof.
  intros Hc. apply exec_unobserved.
  intros T x r. destruct c; try done; by destruct x.
Qed.

Lemma figures_app (tr1 tr2 : list entry) :
  figures (tr1 ++ tr2) = figures tr1 ++ figures tr2.
Proof. apply omap_app. Qed.

Lemma ran_figures {World : Type}
    (handle : forall T : Type, ext T -> World -> outcome T * World)
    {user : cell -> World -> World} {cells : list cell} {g w tr g' w'} :
  ran handle user cells g w tr g' w' ->
  figures tr = concat (map (fun c => if decide (c = Plots) then [1%Z; 2%Z] else []) cells).
Proof.
  induction 1 as [| c rest g w r tr g' w' -> Hf Hrest IH]; [done |].
  rewrite figures_app, IH. simpl. f_equal.
  destruct (decide (c = Plots)) as [-> | Hc].
  - destruct (plots_completed handle g (user Plots w) Hf)
      as (_ & frame & mm & regions & _ & _ & Hrun).
    by destruct (plots_observed Hrun) as (-> & _).
  - by apply figures_elsewhere.
Qed.

(** C9.  The plotting cell, when it completes, has created exactly two
    figures, numbered 1 and 2: the first is the map of the whole globe
    with the points of the table (plot, set_extent, ..., titled Ground
    Tracks), the second the scatter plot of the elevations with the
    outline of each region and a colorbar, and [plt.show()] is its last
    call; no other cell creates a figure, so a completed run of the
    notebook has created these two figures and no other. *)
Theorem two_plots {World : Type}
    (handle : forall T : Type, ext T -> World -> outcome T * World) :
  (forall g w,
      failure (exec handle Plots g w) = None ->
      exists frame mm regions,
        plots_run frame mm regions (trace (exec handle Plots g w))
        /\ figures (trace (exec handle Plots g w)) = [1%Z; 2%Z]
        /\ methods (trace (exec handle Plots g w))
           = ground_tracks_methods ++ heights_methods (length regions) ++ ["plt.show"])
  /\ (forall c g w, c <> Plots -> figures (trace (exec handle c g w)) = [])
  /\ (forall user g w,
      failure (session handle (play user) g w) = None ->
      figures (trace (session handle (play user) g w)) = [1%Z; 2%Z]).
Proof.
  repeat split.
  - intros g w Hf.
    destruct (plots_completed handle g w Hf) as (_ & frame & mm & regions & _ & _ & Hrun).
    exists frame, mm, regions. split; [done |].
    destruct (plots_observed Hrun) as (H1 & H2 & _). by split.
  - intros c g w Hc. by apply figures_elsewhere.
  - intros user g w Hf. unfold play in *.
    apply (play_ran handle user notebook g w) in Hf.
    by rewrite (ran_figures handle Hf).
Qed.

Lemma two_plots_witness :
  figures (trace (session Env.handle (play Env.idle) fresh (Env.sample [Env.triangle])))
  = [1%Z; 2%Z].
Proof.
  apply (proj2 (proj2 (two_plots Env.handle))).
  vm_compute. reflexivity.
Defined.

(** ** The order of the flow *)

Lemma stages_app (tr1 tr2 : list entry) : stages (tr1 ++ tr2) = stages tr1 ++ stages tr2.
Proof. apply flat_map_app. Qed.

Lemma steps_app (tl1 tl2 : list event) : steps (tl1 ++ tl2) = steps tl1 ++ steps tl2.
Proof. apply flat_map_app. Qed.

Lemma steps_made (tr : list entry) : steps (map Made tr) = stages tr.
Proof. induction tr as [| e tr IH]; [done |]. simpl. by rewrite IH. Qed.

Lemma made_made (tr : list entry) : omap made (map Made tr) = tr.
Proof. induction tr as [| e tr IH]; [done |]. simpl. by f_equal. Qed.

Lemma StronglySorted_append {A : Type} (R : A -> A -> Prop) (l1 l2 : list A) :
  StronglySorted R l1 -> StronglySorted R l2 ->
  (forall x y, x ∈ l1 -> y ∈ l2 -> R x y) ->
  StronglySorted R (l1 ++ l2).
Proof.
  intros H1 H2 Hcross. induction H1 as [| x l1 Hl1 IH Hx]; [done |].
  simpl. constructor.
  - apply IH. intros a b Ha Hb. apply Hcross; [by right | done].
  - apply Forall_app. split; [done |].
    apply Forall_forall. intros y Hy. apply Hcross; [by left | done].
Qed.

Lemma StronglySorted_constant (l : list stage) (n : nat) :
  Forall (fun s => phase s = n) l -> StronglySorted le (map phase l).
Proof.
  induction 1 as [| s l <- Hl IH]; simpl; constructor; [done |].
  apply Forall_forall. intros k Hk.
  apply list_elem_of_fmap in Hk as (s' & -> & Hs').
  rewrite Forall_forall in Hl. by rewrite (Hl s' Hs').
Qed.

(** The map cell reads the projection widget only, which is not part of
    the record. *)
Lemma map_stages_wp (g : globals) : wp (cell_map g) (fun tr _ => stages tr = []).
Proof.
  destruct g as [[sr |] mm gd pm]; unfold cell_map, SRwidgets_value; [| done].
  do 3 (simpl; intros [e | ?]; [done |]). done.
Qed.

Section Flow.

Variable World : Type.
Variable handle : forall T : Type, ext T -> World -> outcome T * World.

(** Every step a cell goes through belongs to the cell's phase. *)
Lemma exec_stages (c : cell) (g : globals) (w : World) :
  Forall (fun s => cell_phase c = Some (phase s)) (stages (trace (exec handle c g w))).
Proof.
  destruct (decide (c = RegionMap)) as [-> | Hc].
  - apply (exec_wp handle (fun tr _ _ => Forall _ (stages tr))).
    eapply wp_mono; [| apply map_stages_wp].
    intros tr x ->. constructor.
  - apply (exec_straight handle
             (fun tr _ _ _ => Forall (fun s => cell_phase c = Some (phase s)) (stages tr))).
    split; try done.
    + intros T x r _ Hx. unfold stages. simpl.
      destruct c; try done; destruct x; try done; destruct r; simpl;
        try destruct (in_record _); by repeat constructor.
    + intros tr1 tr2 _ _ _ _ H1 H2. rewrite stages_app. by apply Forall_app.
Qed.

Lemma exec_stages_none (c : cell) (g : globals) (w : World) :
  cell_phase c = None -> stages (trace (exec handle c g w)) = [].
Proof.
  intros Hc. pose proof (exec_stages c g w) as H.
  destruct (stages (trace (exec handle c g w))) as [| s l]; [done |].
  apply Forall_cons in H as [H _]. congruence.
Qed.

Lemma plays_stages (user : cell -> World -> World) (cells : list cell) :
  forall g w,
    Forall (fun s => exists c, c ∈ cells /\ cell_phase c = Some (phase s))
           (stages (trace (session handle (plays user cells) g w))).
Proof.
  induction cells as [| c rest IH]; intros g w; [constructor |].
  change (plays user (c :: rest)) with (User (user c) :: Exec c :: plays user rest).
  rewrite session_user.
  assert (Hc : Forall (fun s => exists c', c' ∈ c :: rest /\ cell_phase c' = Some (phase s))
                      (stages (trace (exec handle c g (user c w))))).
  { eapply Forall_impl; [apply exec_stages |]. simpl. intros s Hs.
    exists c. split; [left | done]. }
  destruct (failure (exec handle c g (user c w))) as [e |] eqn:Hf.
  - by rewrite (session_exec_failed handle c _ g (user c w) e Hf).
  - rewrite (session_exec_done handle c _ g (user c w) Hf). simpl.
    rewrite stages_app. apply Forall_app. split; [done |].
    eapply Forall_impl; [apply IH |]. simpl.
    intros s (c' & Hin & Hs). exists c'. split; [by right | done].
Qed.

Lemma plays_sorted (user : cell -> World -> World) (cells : list cell) :
  StronglySorted precedes cells ->
  forall g w,
    StronglySorted le (map phase (stages (trace (session handle (plays user cells) g w)))).
Proof.
  induction 1 as [| c rest Hrest IH Hc]; intros g w; [constructor |].
  change (plays user (c :: rest)) with (User (user c) :: Exec c :: plays user rest).
  rewrite session_user.
  assert (Hown : StronglySorted le
                   (map phase (stages (trace (exec handle c g (user c w)))))).
  { destruct (cell_phase c) as [n |] eqn:Hphase.
    - apply (StronglySorted_constant _ n).
      eapply Forall_impl; [apply exec_stages |]. simpl. congruence.
    - rewrite exec_stages_none by done. constructor. }
  destruct (failure (exec handle c g (user c w))) as [e |] eqn:Hf.
  - by rewrite (session_exec_failed handle c _ g (user c w) e Hf).
  - rewrite (session_exec_done handle c _ g (user c w) Hf). simpl.
    rewrite stages_app, map_app. apply StronglySorted_append; [done | apply IH |].
    intros x y Hx Hy.
    apply list_elem_of_fmap in Hx as (s & -> & Hs1).
    apply list_elem_of_fmap in Hy as (s' & -> & Hs2).
    pose proof (exec_stages c g (user c w)) as H1.
    rewrite Forall_forall in H1. specialize (H1 s Hs1).
    pose proof (plays_stages user rest (names (exec handle c g (user c w)))
                  (world (exec handle c g (user c w)))) as H2.
    rewrite Forall_forall in H2. destruct (H2 s' Hs2) as (c' & Hin & Hs').
    rewrite Forall_forall in Hc. specialize (Hc c' Hin).
    unfold precedes in Hc. rewrite H1, Hs' in Hc. done.
Qed.

Lemma timeline_cons (user : cell -> World -> World) (c : cell) (rest : list cell)
    (g : globals) (w : World) :
  timeline handle user (c :: rest) g w
  = Turn c :: map Made (trace (exec handle c g (user c w)))
      ++ match failure (exec handle c g (user c w)) with
         | Some _ => []
         | None => timeline handle user rest
                     (names (exec handle c g (user c w)))
                     (world (exec handle c g (user c w)))
         end.
Proof. reflexivity. Qed.

Lemma steps_turn (c : cell) (tl : list event) :
  steps (Turn c :: tl) = turn_stage c ++ steps tl.
Proof. reflexivity. Qed.

Lemma made_turn (c : cell) (tl : list event) : omap made (Turn c :: tl) = omap made tl.
Proof. reflexivity. Qed.

(** The timeline of a played session holds the calls of the session. *)
Lemma timeline_made (user : cell -> World -> World) (cells : list cell) :
  forall g w,
    omap made (timeline handle user cells g w)
    = trace (session handle (plays user cells) g w).
Proof.
  induction cells as [| c rest IH]; intros g w; [done |].
  change (plays user (c :: rest)) with (User (user c) :: Exec c :: plays user rest).
  rewrite session_user, timeline_cons, made_turn, omap_app, made_made.
  destruct (failure (exec handle c g (user c w))) as [e |] eqn:Hf.
  - rewrite (session_exec_failed handle c _ g (user c w) e Hf). simpl.
    by rewrite app_nil_r.
  - rewrite (session_exec_done handle c _ g (user c w) Hf). simpl.
    by rewrite IH.
Qed.

(** Where the user's turn is not one of the listed steps, the steps of
    the timeline are those of the calls. *)
Lemma timeline_no_turn (user : cell -> World -> World) (cells : list cell) :
  Forall (fun c => turn_stage c = []) cells ->
  forall g w,
    steps (timeline handle user cells g w)
    = stages (trace (session handle (plays user cells) g w)).
Proof.
  induction 1 as [| c rest Hc Hrest IH]; intros g w; [done |].
  change (plays user (c :: rest)) with (User (user c) :: Exec c :: plays user rest).
  rewrite session_user, timeline_cons, steps_turn, Hc, steps_app, steps_made.
  cbn [app].
  destruct (failure (exec handle c g (user c w))) as [e |] eqn:Hf.
  - rewrite (session_exec_failed handle c _ g (user c w) e Hf). simpl.
    by rewrite app_nil_r.
  - rewrite (session_exec_done handle c _ g (user c w) Hf). simpl.
    by rewrite stages_app, IH.
Qed.

Lemma turns_skip (user : cell -> World -> World) (c : cell) (rest : list cell)
    (g : globals) (w : World) :
  turn_stage c = [] -> cell_phase c = None ->
  (forall g' w', turns_then_calls handle user rest g' w') ->
  turns_then_calls handle user (c :: rest) g w.
Proof.
  intros Hturn Hphase Hrest. unfold turns_then_calls.
  change (plays user (c :: rest)) with (User (user c) :: Exec c :: plays user rest).
  rewrite session_user, timeline_cons, steps_turn, Hturn, steps_app, steps_made.
  rewrite (exec_stages_none c g (user c w) Hphase). cbn [app].
  destruct (failure (exec handle c g (user c w))) as [e |] eqn:Hf.
  - rewrite (session_exec_failed handle c _ g (user c w) e Hf), Hf.
    rewrite (exec_stages_none c g (user c w) Hphase).
    exists []. split; [by left |]. split; [done |]. done.
  - rewrite (session_exec_done handle c _ g (user c w) Hf). cbn [trace failure].
    rewrite stages_app, (exec_stages_none c g (user c w) Hphase). cbn [app].
    apply Hrest.
Qed.

Lemma turns_map_requests (user : cell -> World -> World) (rest : list cell)
    (g : globals) (w : World) :
  Forall (fun c => turn_stage c = []) rest ->
  turns_then_calls handle user (RegionMap :: Requests :: rest) g w.
Proof.
  intros Hrest. unfold turns_then_calls.
  change (plays user (RegionMap :: Requests :: rest))
    with (User (user RegionMap) :: Exec RegionMap :: plays user (Requests :: rest)).
  rewrite session_user, timeline_cons, steps_turn, steps_app, steps_made.
  rewrite (exec_stages_none RegionMap g (user RegionMap w) eq_refl). cbn [app turn_stage].
  destruct (failure (exec handle RegionMap g (user RegionMap w))) as [e |] eqn:Hf.
  - rewrite (session_exec_failed handle RegionMap _ g (user RegionMap w) e Hf), Hf.
    rewrite (exec_stages_none RegionMap g (user RegionMap w) eq_refl).
    exists [ValuesSet]. split; [by right; left |]. split; [done |]. done.
  - rewrite (session_exec_done handle RegionMap _ g (user RegionMap w) Hf).
    cbn [trace failure].
    rewrite stages_app, (exec_stages_none RegionMap g (user RegionMap w) eq_refl).
    cbn [app].
    set (g3 := names (exec handle RegionMap g (user RegionMap w))).
    set (w3 := world (exec handle RegionMap g (user RegionMap w))).
    change (plays user (Requests :: rest))
      with (User (user Requests) :: Exec Requests :: plays user rest).
    rewrite session_user, timeline_cons, steps_turn, steps_app, steps_made.
    cbn [app turn_stage].
    exists [ValuesSet; PolygonsDrawn]. split; [by right; right |].
    split; [| done]. cbn [app]. do 2 f_equal.
    destruct (failure (exec handle Requests g3 (user Requests w3))) as [e |] eqn:Hf4.
    + rewrite (session_exec_failed handle Requests _ g3 (user Requests w3) e Hf4).
      apply app_nil_r.
    + rewrite (session_exec_done handle Requests _ g3 (user Requests w3) Hf4).
      cbn [trace]. by rewrite stages_app, (timeline_no_turn user rest Hrest).
Qed.

Lemma notebook_turns (user : cell -> World -> World) (g : globals) (w : World) :
  turns_then_calls handle user notebook g w.
Proof.
  unfold notebook.
  apply turns_skip; [done | done |]. intros g1 w1.
  apply turns_skip; [done | done |]. intros g2 w2.
  apply turns_map_requests. by repeat constructor.
Qed.

End Flow.

Arguments exec_stages {World} handle c g w.
Arguments plays_sorted {World} handle user cells _ g w.
Arguments plays_stages {World} handle user cells g w.
Arguments timeline_made {World} handle user cells g w.
Arguments notebook_turns {World} handle user g w.

Lemma notebook_sorted : StronglySorted precedes notebook.
Proof.
  unfold notebook.
  repeat (constructor; [| repeat (constructor; [unfold precedes; simpl; lia |]);
                          constructor]).
  constructor.
Qed.

Lemma ran_cons_inv {World : Type}
    (handle : forall T : Type, ext T -> World -> outcome T * World)
    (user : cell -> World -> World) (c : cell) (rest : list cell) g w tr g' w' :
  ran handle user (c :: rest) g w tr g' w' ->
  exists r tr',
    r = exec handle c g (user c w) /\ failure r = None /\ tr = trace r ++ tr'
    /\ ran handle user rest (names r) (world r) tr' g' w'.
Proof. inversion 1; subst. by eexists _, _. Qed.

Lemma ran_nil_inv {World : Type}
    (handle : forall T : Type, ext T -> World -> outcome T * World)
    (user : cell -> World -> World) g w tr g' w' :
  ran handle user [] g w tr g' w' -> tr = [] /\ g' = g /\ w' = w.
Proof. by inversion 1. Qed.

Lemma Forall2_last {A B : Type} (P : A -> B -> Prop) (l : list A) (k : list B) (y : B) :
  Forall2 P l k -> last k = Some y -> exists x, last l = Some x /\ P x y.
Proof.
  induction 1 as [| a b l k Hab Hlk IH]; [done |].
  rewrite !last_cons. destruct (last k) as [y' |] eqn:Hk.
  - intros [= ->]. destruct (IH eq_refl) as (x & -> & Hx). by exists x.
  - intros [= ->]. apply last_None in Hk as ->.
    apply Forall2_nil_inv_r in Hlk as ->. by exists a.
Qed.

Lemma save_observed {tr g g'} :
  save_run tr g g' ->
  exists d dv dc v c,
    parms g = Some d /\ dv !! "icesat2" = Some (VDict dc)
    /\ dc !! "version" = Some v /\ dc !! "commit" = Some c
    /\ versions tr = [VDict dv]
    /\ omap saved_parameters tr = [<["commit" := c]> (<["version" := v]> d)]
    /\ stages tr = [Persisted].
Proof.
  intros [g0 sr mm frame d dv dc v c file format regions _ _ _ Hd Hdc Hv Hc d'].
  by exists d, dv, dc, v, c.
Qed.

Ltac unobserved :=
  apply exec_unobserved; intros ? x ?; by destruct x.

(** A completed run of the notebook started with [parms] unbound: what
    the observers see. *)
Lemma notebook_completed {World : Type}
    (handle : forall T : Type, ext T -> World -> outcome T * World)
    (user : cell -> World -> World) g w tr g' w' :
  parms g = None ->
  ran handle user notebook g w tr g' w' ->
  exists regions ds d dv dc v c,
    Forall2 flat_parms regions ds /\ last ds = Some d
    /\ submitted tr = ds
    /\ head (regions_read tr) = Some regions
    /\ versions tr = [VDict dv]
    /\ dv !! "icesat2" = Some (VDict dc)
    /\ dc !! "version" = Some v /\ dc !! "commit" = Some c
    /\ omap saved_parameters tr = [<["commit" := c]> (<["version" := v]> d)].
Proof.
  intros Hparms H. unfold notebook in H.
  apply ran_cons_inv in H as (r1 & t1 & Hr1 & Hf1 & -> & H).
  apply ran_cons_inv in H as (r2 & t2 & Hr2 & Hf2 & -> & H).
  apply ran_cons_inv in H as (r3 & t3 & Hr3 & Hf3 & -> & H).
  apply ran_cons_inv in H as (r4 & t4 & Hr4 & Hf4 & -> & H).
  apply ran_cons_inv in H as (r5 & t5 & Hr5 & Hf5 & -> & H).
  apply ran_cons_inv in H as (r6 & t6 & Hr6 & Hf6 & -> & H).
  apply ran_cons_inv in H as (r7 & t7 & Hr7 & Hf7 & -> & H).
  apply ran_cons_inv in H as (r8 & t8 & Hr8 & Hf8 & -> & H).
  apply ran_cons_inv in H as (r9 & t9 & Hr9 & Hf9 & -> & H).
  apply ran_nil_inv in H as (-> & -> & ->).
  (* the names: parms stays unbound up to the request cell *)
  assert (P1 : parms (names r1) = None)
    by (rewrite Hr1, exec_keeps_parms; done).
  assert (P2 : parms (names r2) = None)
    by (rewrite Hr2, exec_keeps_parms; done).
  assert (P3 : parms (names r3) = None)
    by (rewrite Hr3, exec_keeps_parms; done).
  (* the request cell *)
  destruct (requests_run handle (names r3) (user Requests (world r3))) as (Hreq & _ & _).
  rewrite <- Hr4 in Hreq.
  destruct (Hreq Hf4) as (sr & mm & asset & release & empty & regions & loop
                          & ds & ts & _ & _ & Ht4 & Hblks & Hn4).
  destruct (request_blocks_observed Hblks)
    as (Hflat & Hlen & Hx & _ & Hrr4 & _).
  assert (P4 : parms (names r4) = last ds)
    by (rewrite Hn4; simpl; rewrite P3; by destruct (last ds)).
  assert (P5 : parms (names r5) = last ds)
    by (rewrite Hr5, exec_keeps_parms; done).
  assert (P6 : parms (names r6) = last ds)
    by (rewrite Hr6, exec_keeps_parms; done).
  (* the save cell *)
  pose proof (save_completed handle (names r6) (user Save (world r6))) as Hsave.
  rewrite <- Hr7 in Hsave. specialize (Hsave Hf7).
  (* what the observers do not see *)
  assert (S1 : submitted (trace r1) = []) by (rewrite Hr1; by apply submitted_elsewhere).
  assert (S2 : submitted (trace r2) = []) by (rewrite Hr2; by apply submitted_elsewhere).
  assert (S3 : submitted (trace r3) = []) by (rewrite Hr3; by apply submitted_elsewhere).
  assert (S5 : submitted (trace r5) = []) by (rewrite Hr5; by apply submitted_elsewhere).
  assert (S6 : submitted (trace r6) = []) by (rewrite Hr6; by apply submitted_elsewhere).
  assert (S7 : submitted (trace r7) = []) by (rewrite Hr7; by apply submitted_elsewhere).
  assert (S8 : submitted (trace r8) = []) by (rewrite Hr8; by apply submitted_elsewhere).
  assert (S9 : submitted (trace r9) = []) by (rewrite Hr9; by apply submitted_elsewhere).
  assert (R1 : regions_read (trace r1) = []) by (rewrite Hr1; unobserved).
  assert (R2 : regions_read (trace r2) = []) by (rewrite Hr2; unobserved).
  assert (R3 : regions_read (trace r3) = []) by (rewrite Hr3; unobserved).
  assert (V1 : versions (trace r1) = []) by (rewrite Hr1; unobserved).
  assert (V2 : versions (trace r2) = []) by (rewrite Hr2; unobserved).
  assert (V3 : versions (trace r3) = []) by (rewrite Hr3; unobserved).
  assert (V4 : versions (trace r4) = []) by (rewrite Hr4; unobserved).
  assert (V5 : versions (trace r5) = []) by (rewrite Hr5; unobserved).
  assert (V6 : versions (trace r6) = []) by (rewrite Hr6; unobserved).
  assert (V8 : versions (trace r8) = []) by (rewrite Hr8; unobserved).
  assert (V9 : versions (trace r9) = []) by (rewrite Hr9; unobserved).
  assert (W1 : omap saved_parameters (trace r1) = []) by (rewrite Hr1; unobserved).
  assert (W2 : omap saved_parameters (trace r2) = []) by (rewrite Hr2; unobserved).
  assert (W3 : omap saved_parameters (trace r3) = []) by (rewrite Hr3; unobserved).
  assert (W4 : omap saved_parameters (trace r4) = []) by (rewrite Hr4; unobserved).
  assert (W5 : omap saved_parameters (trace r5) = []) by (rewrite Hr5; unobserved).
  assert (W6 : omap saved_parameters (trace r6) = []) by (rewrite Hr6; unobserved).
  assert (W8 : omap saved_parameters (trace r8) = []) by (rewrite Hr8; unobserved).
  assert (W9 : omap saved_parameters (trace r9) = []) by (rewrite Hr9; unobserved).
  assert (Hds : submitted (trace r4) = ds).
  { rewrite Ht4, submitted_app, (submitted_exchange loop), Hx.
    destruct (zip_answers ds ts) as [-> _]; [| done].
    rewrite Hlen. by eapply Forall2_length. }
  assert (Hrr : regions_read (trace r4) = [regions]).
  { unfold regions_read in *. by rewrite Ht4, omap_app, Hrr4. }
  destruct (save_observed Hsave) as (d & dv & dc & v & c & Hd & Hdc & Hv & Hc
                                     & V7 & W7 & F7).
  rewrite P6 in Hd.
  exists regions, ds, d, dv, dc, v, c.
  split; [done |]. split; [done |]. split.
  { by rewrite !submitted_app, S1, S2, S3, Hds, S5, S6, S7, S8, S9, !app_nil_r. }
  split.
  { unfold regions_read in *. by rewrite !omap_app, R1, R2, R3, Hrr. }
  split.
  { unfold versions in *.
    by rewrite !omap_app, V1, V2, V3, V4, V5, V6, V7, V8, V9. }
  split; [done |]. split; [done |]. split; [done |].
  by rewrite !omap_app, W1, W2, W3, W4, W5, W6, W7, W8, W9.
Qed.


(** The steps of the calls of a completed run of the notebook. *)
Lemma notebook_stages {World : Type}
    (handle : forall T : Type, ext T -> World -> outcome T * World)
    (user : cell -> World -> World) g w tr g' w' :
  ran handle user notebook g w tr g' w' ->
  exists regions,
    head (regions_read tr) = Some regions
    /\ stages tr
       = flat_map (fun _ => replicate 10 Assembling ++ [Called; Received]) regions
         ++ [Plotted; Plotted; Persisted; Reloaded].
Proof.
  intros H. unfold notebook in H.
  apply ran_cons_inv in H as (r1 & t1 & Hr1 & Hf1 & -> & H).
  apply ran_cons_inv in H as (r2 & t2 & Hr2 & Hf2 & -> & H).
  apply ran_cons_inv in H as (r3 & t3 & Hr3 & Hf3 & -> & H).
  apply ran_cons_inv in H as (r4 & t4 & Hr4 & Hf4 & -> & H).
  apply ran_cons_inv in H as (r5 & t5 & Hr5 & Hf5 & -> & H).
  apply ran_cons_inv in H as (r6 & t6 & Hr6 & Hf6 & -> & H).
  apply ran_cons_inv in H as (r7 & t7 & Hr7 & Hf7 & -> & H).
  apply ran_cons_inv in H as (r8 & t8 & Hr8 & Hf8 & -> & H).
  apply ran_cons_inv in H as (r9 & t9 & Hr9 & Hf9 & -> & H).
  apply ran_nil_inv in H as (-> & -> & ->).
  (* the request cell *)
  destruct (requests_run handle (names r3) (user Requests (world r3))) as (Hreq & _ & _).
  rewrite <- Hr4 in Hreq.
  destruct (Hreq Hf4) as (sr & mm & asset & release & empty & regions & loop
                          & ds & ts & _ & _ & Ht4 & Hblks & _).
  destruct (request_blocks_observed Hblks) as (_ & _ & _ & _ & Hrr4 & Hst4 & _).
  (* the plotting, save and load cells *)
  destruct (plots_completed handle (names r4) (user Plots (world r4)))
    as (_ & frame & mm' & regs & _ & _ & Hplots); [by rewrite <- Hr5 |].
  rewrite <- Hr5 in Hplots.
  destruct (plots_observed Hplots) as (_ & _ & _ & Hst5).
  pose proof (save_completed handle (names r6) (user Save (world r6))) as Hsave.
  rewrite <- Hr7 in Hsave. specialize (Hsave Hf7).
  destruct (save_observed Hsave) as (d & dv & dc & v & c & _ & _ & _ & _ & _ & _ & Hst7).
  pose proof (load_completed handle (names r8) (user Load (world r8))) as Hload.
  rewrite <- Hr9 in Hload. specialize (Hload Hf9).
  assert (Hst9 : stages (trace r9) = [Reloaded]) by (by destruct Hload).
  (* the cells without a step *)
  pose proof (exec_stages_none _ handle Imports g (user Imports w) eq_refl) as Hst1.
  rewrite <- Hr1 in Hst1.
  pose proof (exec_stages_none _ handle Options (names r1) (user Options (world r1))
                eq_refl) as Hst2.
  rewrite <- Hr2 in Hst2.
  pose proof (exec_stages_none _ handle RegionMap (names r2) (user RegionMap (world r2))
                eq_refl) as Hst3.
  rewrite <- Hr3 in Hst3.
  pose proof (exec_stages_none _ handle FileSaver (names r5) (user FileSaver (world r5))
                eq_refl) as Hst6.
  rewrite <- Hr6 in Hst6.
  pose proof (exec_stages_none _ handle FileLoader (names r7) (user FileLoader (world r7))
                eq_refl) as Hst8.
  rewrite <- Hr8 in Hst8.
  assert (R1 : regions_read (trace r1) = []) by (rewrite Hr1; unobserved).
  assert (R2 : regions_read (trace r2) = []) by (rewrite Hr2; unobserved).
  assert (R3 : regions_read (trace r3) = []) by (rewrite Hr3; unobserved).
  exists regions. split.
  - unfold regions_read in *. by rewrite !omap_app, R1, R2, R3, Ht4, omap_app, Hrr4.
  - rewrite !stages_app, Hst1, Hst2, Hst3, Hst5, Hst6, Hst7, Hst8, Hst9, Ht4,
      stages_app, Hst4.
    reflexivity.
Qed.




(** ** The parameters written with the table *)

Lemma save_unbound {World : Type}
    (handle : forall T : Type, ext T -> World -> outcome T * World)
    (g : globals) (w : World) :
  parms g = None ->
  failure (exec handle Save g w) <> None
  /\ omap saved (trace (exec handle Save g w)) = []
  /\ (forall dv dc v,
        versions (trace (exec handle Save g w)) = [VDict dv] ->
        dv !! "icesat2" = Some (VDict dc) -> dc !! "version" = Some v ->
        failure (exec handle Save g w) = Some (NameError "parms")).
Proof.
  intros Hparms.
  apply (exec_wp handle (fun tr o _ =>
    o <> None /\ omap saved tr = []
    /\ (forall dv dc v, versions tr = [VDict dv] ->
          dv !! "icesat2" = Some (VDict dc) -> dc !! "version" = Some v ->
          o = Some (NameError "parms")))).
  eapply wp_mono; [| by apply save_unbound_wp].
  intros tr [[e | []] g'] (Hfail & Hsaved & Hname); simpl in *; [| done].
  split; [done |]. split; [done |].
  intros dv dc v Hv Hdc Hver. by specialize (Hname dv dc v Hv Hdc Hver) as [= ->].
Qed.

(** C5.  In a run of the notebook from a kernel where [parms] is
    unbound: when the run completes, at least one region was processed
    and the parameters written with the table are the record of the last
    region submitted, with the keys version and commit added from the
    answer of [get_version()].  The save cell run with [parms] unbound
    raises without writing a file ([NameError] on [parms] once the version
    was answered with its fields); a request cell that completes over no
    region leaves [parms] unbound; and no other cell assigns [parms]. *)
Theorem save_writes_last_record {World : Type}
    (handle : forall T : Type, ext T -> World -> outcome T * World)
    (user : cell -> World -> World) (g : globals) (w : World) :
  parms g = None ->
  let r := session handle (play user) g w in
  (failure r = None ->
   exists regions poly d dv dc v c,
     head (regions_read (trace r)) = Some regions
     /\ last regions = Some poly /\ flat_parms poly d
     /\ last (submitted (trace r)) = Some d
     /\ versions (trace r) = [VDict dv]
     /\ dv !! "icesat2" = Some (VDict dc)
     /\ dc !! "version" = Some v /\ dc !! "commit" = Some c
     /\ omap saved_parameters (trace r) = [<["commit" := c]> (<["version" := v]> d)])
  /\ (forall g0 w0,
      parms g0 = None ->
      failure (exec handle Save g0 w0) <> None
      /\ omap saved (trace (exec handle Save g0 w0)) = []
      /\ (forall dv dc v,
            versions (trace (exec handle Save g0 w0)) = [VDict dv] ->
            dv !! "icesat2" = Some (VDict dc) -> dc !! "version" = Some v ->
            failure (exec handle Save g0 w0) = Some (NameError "parms")))
  /\ (forall g0 w0,
      parms g0 = None ->
      failure (exec handle Requests g0 w0) = None ->
      regions_read (trace (exec handle Requests g0 w0)) = [[]] ->
      parms (names (exec handle Requests g0 w0)) = None)
  /\ (forall c g0 w0,
      c <> Requests -> c <> Save -> parms (names (exec handle c g0 w0)) = parms g0).
Proof.
  intros Hparms r. subst r. unfold play. split; [| split; [| split]].
  - intros Hf. apply (play_ran handle user notebook g w) in Hf.
    destruct (notebook_completed handle user g w _ _ _ Hparms Hf)
      as (regions & ds & d & dv & dc & v & c & Hflat & Hlast
          & Hsub & Hregions & Hver & Hdc & Hv & Hc & Hsaved).
    destruct (Forall2_last flat_parms regions ds d Hflat Hlast) as (poly & Hpoly & Hd).
    exists regions, poly, d, dv, dc, v, c. rewrite Hsub.
    repeat (split; [done |]). done.
  - intros g0 w0. apply save_unbound.
  - intros g0 w0 Hg0 Hf Hnone.
    destruct (requests_run handle g0 w0) as (Hrun & _ & _).
    destruct (Hrun Hf) as (sr & mm & asset & release & empty & regions & loop
                           & ds & ts & _ & _ & Htr & Hblks & Hnames).
    destruct (request_blocks_observed Hblks) as (Hflat & _ & _ & _ & Hrr & _).
    rewrite Htr in Hnone. unfold regions_read in *.
    rewrite omap_app, Hrr in Hnone. simpl in Hnone. injection Hnone as ->.
    apply Forall2_nil_inv_l in Hflat as ->.
    by rewrite Hnames, Hg0.
  - intros c g0 w0. apply exec_keeps_parms.
Qed.

Lemma save_writes_last_record_witness :
  let r := session Env.handle (play Env.idle) fresh
             (Env.sample [Env.triangle; Env.triangle]) in
  exists regions poly d dv dc v c,
    head (regions_read (trace r)) = Some regions
    /\ last regions = Some poly /\ flat_parms poly d
    /\ last (submitted (trace r)) = Some d
    /\ versions (trace r) = [VDict dv]
    /\ dv !! "icesat2" = Some (VDict dc)
    /\ dc !! "version" = Some v /\ dc !! "commit" = Some c
    /\ omap saved_parameters (trace r) = [<["commit" := c]> (<["version" := v]> d)].
Proof.
  apply (proj1 (save_writes_last_record Env.handle Env.idle fresh
                  (Env.sample [Env.triangle; Env.triangle]) eq_refl)).
  vm_compute. reflexivity.
Defined.

Example no_region_no_save :
  let r := session Env.handle (play Env.idle) fresh (Env.sample []) in
  failure r = Some (NameError "parms") /\ omap saved (trace r) = []
  /\ submitted (trace r) = [].
Proof. vm_compute. done. Qed.

(** ** The rows the plots consume *)

Lemma outlines_undrawn {ax2 regions tr} :
  outlines_run ax2 regions tr -> omap scattered tr = [] /\ omap dotted tr = [].
Proof.
  induction 1 as [| poly rest blk tr [lons lats pc a] Hrest (IH1 & IH2)]; [done |].
  rewrite !omap_app, IH1, IH2. done.
Qed.

Lemma plots_drawn {frame mm regions tr} :
  plots_run frame mm regions tr ->
  omap scattered tr = [(geometry_x frame, geometry_y frame, h_mean frame)]
  /\ omap dotted tr = [(geometry_x frame, geometry_y frame)].
Proof.
  intros [tr1 tr2 [] [pcb f2 ax2 pcb' sc loop b1 b2 cbar_ax cbar b3 b4 b5 b6 b7 b8 b9 b10
                      Hloop]].
  destruct (outlines_undrawn Hloop) as (H1 & H2).
  rewrite !omap_app, H1, H2. done.
Qed.

Lemma lookup_column {A B : Type} (f : A -> B) (l : list A) (i : nat) (x : A) :
  l !! i = Some x -> map f l !! i = Some (f x).
Proof.
  revert i. induction l as [| y l IH]; intros [| i] H; simplify_eq/=; auto.
Qed.

(** C6.  The plotting cell, when it completes, draws the table bound to
    [gdf] row by row: the points of the first figure are the x and y
    geometry columns of the table, the scatter plot of the second is made
    of the same two columns coloured by the [h_mean] column, and every row
    of the table has its entry in each of the three columns. *)
Theorem plots_consume_rows {World : Type}
    (handle : forall T : Type, ext T -> World -> outcome T * World)
    (g : globals) (w : World) :
  failure (exec handle Plots g w) = None ->
  exists frame,
    gdf g = Some frame
    /\ omap dotted (trace (exec handle Plots g w))
       = [(geometry_x frame, geometry_y frame)]
    /\ omap scattered (trace (exec handle Plots g w))
       = [(geometry_x frame, geometry_y frame, h_mean frame)]
    /\ length (geometry_x frame) = length frame
    /\ length (geometry_y frame) = length frame
    /\ length (h_mean frame) = length frame
    /\ (forall (i : nat) (point : row),
          frame !! i = Some point ->
          geometry_x frame !! i = Some (geom_x point)
          /\ geometry_y frame !! i = Some (geom_y point)
          /\ h_mean frame !! i = Some (row_h_mean point)).
Proof.
  intros Hf.
  destruct (plots_completed handle g w Hf) as (_ & frame & mm & regions & Hframe & _ & Hrun).
  destruct (plots_drawn Hrun) as (Hs & Hd).
  exists frame. unfold geometry_x, geometry_y, h_mean in *.
  rewrite !length_map, Hs, Hd. repeat (split; [done |]).
  intros i point Hi. repeat split; by apply lookup_column.
Qed.

Lemma plots_consume_rows_witness :
  exists frame,
    Some [ {| geom_x := 1; geom_y := 2; row_h_mean := 3 |};
           {| geom_x := 4; geom_y := 5; row_h_mean := 6 |} ] = Some frame
    /\ omap dotted (trace (exec Env.handle Plots
          {| SRwidgets := Some 0; m := Some 2;
             gdf := Some [ {| geom_x := 1; geom_y := 2; row_h_mean := 3 |};
                           {| geom_x := 4; geom_y := 5; row_h_mean := 6 |} ];
             parms := None |}
          (Env.sample [Env.triangle])))
       = [(geometry_x frame, geometry_y frame)]
    /\ omap scattered (trace (exec Env.handle Plots
          {| SRwidgets := Some 0; m := Some 2;
             gdf := Some [ {| geom_x := 1; geom_y := 2; row_h_mean := 3 |};
                           {| geom_x := 4; geom_y := 5; row_h_mean := 6 |} ];
             parms := None |}
          (Env.sample [Env.triangle])))
       = [(geometry_x frame, geometry_y frame, h_mean frame)]
    /\ length (geometry_x frame) = length frame
    /\ length (geometry_y frame) = length frame
    /\ length (h_mean frame) = length frame
    /\ (forall (i : nat) (point : row),
          frame !! i = Some point ->
          geometry_x frame !! i = Some (geom_x point)
          /\ geometry_y frame !! i = Some (geom_y point)
          /\ h_mean frame !! i = Some (row_h_mean point)).
Proof.
  apply (plots_consume_rows Env.handle
           {| SRwidgets := Some 0; m := Some 2;
              gdf := Some [ {| geom_x := 1; geom_y := 2; row_h_mean := 3 |};
                            {| geom_x := 4; geom_y := 5; row_h_mean := 6 |} ];
              parms := None |}
           (Env.sample [Env.triangle])).
  vm_compute. reflexivity.
Defined.

(** ** The file helper *)

Section Files.

Variable World : Type.
Variable handle : forall T : Type, ext T -> World -> outcome T * World.

Lemma exec_drivers (c : cell) (g : globals) (w : World) :
  Forall (fun x => snd x = "pytables") (omap saved (trace (exec handle c g w)))
  /\ Forall (fun x => snd x = "pytables") (omap loaded (trace (exec handle c g w))).
Proof.
  apply (exec_straight handle
           (fun tr _ _ _ =>
              Forall (fun x => snd x = "pytables") (omap saved tr)
              /\ Forall (fun x => snd x = "pytables") (omap loaded tr))).
  split; try done.
  - intros T x r _ Hx.
    destruct c; destruct x; simpl in *; try done; repeat constructor; simpl;
      by apply bool_decide_eq_true in Hx.
  - intros tr1 tr2 _ _ _ _ [H1 H1'] [H2 H2']. rewrite !omap_app.
    split; by apply Forall_app.
Qed.

Lemma session_drivers (steps : list (step World)) (g : globals) (w : World) :
  Forall (fun x => snd x = "pytables") (omap saved (trace (session handle steps g w)))
  /\ Forall (fun x => snd x = "pytables") (omap loaded (trace (session handle steps g w))).
Proof.
  apply (session_compositional handle
           (fun tr _ _ _ =>
              Forall (fun x => snd x = "pytables") (omap saved tr)
              /\ Forall (fun x => snd x = "pytables") (omap loaded tr))).
  - done.
  - intros c g0 w0. apply exec_drivers.
  - intros tr1 tr2 _ _ _ _ [H1 H1'] [H2 H2']. rewrite !omap_app.
    split; by apply Forall_app.
Qed.

End Files.

Arguments session_drivers {World} handle steps g w.

(** C4.  The file helper is called with a format argument and the
    driver 'pytables' in both directions: in every session every
    [io.to_file] and every [io.from_file] call names that driver; a
    completed save cell and a completed load cell pass as format the
    answer of [SRwidgets.format]; the format is one of two distinct
    values, HDF5 and netCDF, and with either chosen the notebook saves
    and loads in that format. *)
Theorem two_storage_formats :
  (forall (World : Type) (handle : forall T : Type, ext T -> World -> outcome T * World)
          (steps : list (step World)) (g : globals) (w : World),
      Forall (fun x => snd x = "pytables") (omap saved (trace (session handle steps g w)))
      /\ Forall (fun x => snd x = "pytables")
                (omap loaded (trace (session handle steps g w))))
  /\ (forall (World : Type) (handle : forall T : Type, ext T -> World -> outcome T * World)
             (g : globals) (w : World),
      (failure (exec handle Save g w) = None ->
       save_run (trace (exec handle Save g w)) g (names (exec handle Save g w)))
      /\ (failure (exec handle Load g w) = None ->
          load_run (trace (exec handle Load g w)) g (names (exec handle Load g w))))
  /\ HDF5 <> netCDF
  /\ (forall format : file_format, format = HDF5 \/ format = netCDF)
  /\ (forall format : file_format,
      let r := session Env.handle (play Env.idle) fresh
                 (Env.choosing format [Env.triangle]) in
      failure r = None
      /\ omap saved (trace r) = [("ATL06-SR.out", format, "pytables")]
      /\ omap loaded (trace r) = [("ATL06-SR.out", format, "pytables")]).
Proof.
  split; [| split; [| split; [| split]]].
  - intros World handle steps g w. apply session_drivers.
  - intros World handle g w. split.
    + apply save_completed.
    + apply load_completed.
  - done.
  - intros []; auto.
  - intros []; vm_compute; done.
Qed.

(** ** Saving, then loading, in the reference environment *)

Lemma env_filesaver (w : Env.world) (g : globals) (sr : obj) :
  SRwidgets g = Some sr ->
  exec Env.handle FileSaver g w
  = {| trace := [Entry (display (DWidget sr Widget.filesaver)) (inr tt)];
       failure := None; names := g; world := w |}.
Proof. destruct g as [sr0 mm gd pm]. simpl. by intros ->. Qed.

Lemma env_fileloader (w : Env.world) (g : globals) (sr : obj) :
  SRwidgets g = Some sr ->
  exec Env.handle FileLoader g w
  = {| trace := [Entry (display (DWidget sr Widget.fileloader)) (inr tt)];
       failure := None; names := g; world := w |}.
Proof. destruct g as [sr0 mm gd pm]. simpl. by intros ->. Qed.

Lemma env_save (w : Env.world) (sr mm : obj) (frame : table)
    (d dv dc : gmap string value) (v c : value) :
  Env.service_version w = VDict dv -> dv !! "icesat2" = Some (VDict dc) ->
  dc !! "version" = Some v -> dc !! "commit" = Some c ->
  let g := {| SRwidgets := Some sr; m := Some mm; gdf := Some frame; parms := Some d |} in
  let d' := <["commit" := c]> (<["version" := v]> d) in
  exec Env.handle Save g w =
  {| trace := [ Entry icesat2_get_version (inr (VDict dv));
                Entry (widgets_file sr) (inr (Env.chosen_file w));
                Entry (widgets_format sr) (inr (Env.chosen_format w));
                Entry (leaflet_regions mm) (inr (Env.drawn w));
                Entry (io_to_file frame (Env.chosen_file w) (Env.chosen_format w)
                         "pytables" d' (Env.drawn w) true) (inr tt) ];
     failure := None;
     names := set_parms d' g;
     world := Env.write (Env.chosen_file w)
                {| Env.stored_format := Env.chosen_format w;
                   Env.stored_driver := "pytables";
                   Env.stored_table := frame;
                   Env.stored_parameters := d';
                   Env.stored_regions := Env.drawn w |} w |}.
Proof.
  intros Hver Hdc Hv Hc g d'. subst g d'.
  unfold exec, cell_body, cell_save.
  cbn. rewrite Hver. cbn. rewrite Hdc. cbn. rewrite Hv. cbn. rewrite Hc. cbn.
  reflexivity.
Qed.

Lemma env_load (w : Env.world) (g : globals) (sr : obj) (s : Env.stored) :
  SRwidgets g = Some sr ->
  Env.disk w !! Env.chosen_file w = Some s ->
  Env.stored_format s = Env.chosen_format w ->
  Env.stored_driver s = "pytables" ->
  exec Env.handle Load g w =
  {| trace := [ Entry (widgets_file sr) (inr (Env.chosen_file w));
                Entry (widgets_format sr) (inr (Env.chosen_format w));
                Entry (io_from_file (Env.chosen_file w) (Env.chosen_format w) "pytables")
                      (inr (Env.stored_table s)) ];
     failure := None;
     names := set_gdf (Env.stored_table s) g;
     world := w |}.
Proof.
  destruct g as [sr0 mm gd pm]. simpl. intros -> Hs Hfmt Hdrv.
  unfold exec, cell_body, cell_load. cbn.
  unfold Env.from_file. rewrite Hs. rewrite decide_True by done. reflexivity.
Qed.

(** C7.  In the reference environment, saving and then loading at once
    (the cells file chooser, save, file chooser, load, with no user action
    in between) is a round trip: the session completes, [io.from_file] is
    called with the path, the format and the driver [io.to_file] was
    called with, and the table bound to [gdf] in the end is the table that
    was written. *)
Theorem save_load_roundtrip (w : Env.world) (g : globals) (sr mm : obj) (frame : table)
    (d dv dc : gmap string value) (v c : value) :
  SRwidgets g = Some sr -> m g = Some mm -> gdf g = Some frame -> parms g = Some d ->
  Env.service_version w = VDict dv -> dv !! "icesat2" = Some (VDict dc) ->
  dc !! "version" = Some v -> dc !! "commit" = Some c ->
  let r := session Env.handle [Exec FileSaver; Exec Save; Exec FileLoader; Exec Load] g w in
  failure r = None
  /\ omap saved (trace r) = [(Env.chosen_file w, Env.chosen_format w, "pytables")]
  /\ omap loaded (trace r) = omap saved (trace r)
  /\ omap saved_table (trace r) = [frame]
  /\ gdf (names r) = Some frame.
Proof.
  intros Hsr Hm Hgdf Hparms Hver Hdc Hv Hc r. subst r.
  destruct g as [sr0 mm0 gd pm]. simpl in Hsr, Hm, Hgdf, Hparms. subst.
  set (g := {| SRwidgets := Some sr; m := Some mm; gdf := Some frame; parms := Some d |}).
  set (d' := <["commit" := c]> (<["version" := v]> d)).
  set (s := {| Env.stored_format := Env.chosen_format w;
               Env.stored_driver := "pytables";
               Env.stored_table := frame;
               Env.stored_parameters := d';
               Env.stored_regions := Env.drawn w |}).
  set (w' := Env.write (Env.chosen_file w) s w).
  pose proof (env_filesaver w g sr eq_refl) as E1.
  assert (E2 : exec Env.handle Save g w
               = {| trace := [ Entry icesat2_get_version (inr (VDict dv));
                               Entry (widgets_file sr) (inr (Env.chosen_file w));
                               Entry (widgets_format sr) (inr (Env.chosen_format w));
                               Entry (leaflet_regions mm) (inr (Env.drawn w));
                               Entry (io_to_file frame (Env.chosen_file w)
                                        (Env.chosen_format w) "pytables" d'
                                        (Env.drawn w) true) (inr tt) ];
                    failure := None;
                    names := set_parms d' g;
                    world := w' |})
    by exact (env_save w sr mm frame d dv dc v c Hver Hdc Hv Hc).
  pose proof (env_fileloader w' (set_parms d' g) sr eq_refl) as E3.
  assert (E4 : exec Env.handle Load (set_parms d' g) w'
               = {| trace := [ Entry (widgets_file sr) (inr (Env.chosen_file w));
                               Entry (widgets_format sr) (inr (Env.chosen_format w));
                               Entry (io_from_file (Env.chosen_file w)
                                        (Env.chosen_format w) "pytables") (inr frame) ];
                    failure := None;
                    names := set_gdf frame (set_parms d' g);
                    world := w' |}).
  { apply (env_load w' (set_parms d' g) sr s); try done.
    unfold w', Env.write. simpl. apply lookup_insert_eq. }
  rewrite (session_exec_done Env.handle FileSaver _ g w) by (by rewrite E1).
  rewrite E1. cbn [names world trace failure].
  rewrite (session_exec_done Env.handle Save _ g w) by (by rewrite E2).
  rewrite E2. cbn [names world trace failure].
  rewrite (session_exec_done Env.handle FileLoader _ _ _) by (by rewrite E3).
  rewrite E3. cbn [names world trace failure].
  rewrite (session_exec_done Env.handle Load _ _ _) by (by rewrite E4).
  rewrite E4. cbn [names world trace failure]. rewrite session_nil.
  cbn [names world trace failure]. done.
Qed.

Lemma save_load_roundtrip_witness :
  let r := session Env.handle [Exec FileSaver; Exec Save; Exec FileLoader; Exec Load]
             {| SRwidgets := Some 0; m := Some 2;
                gdf := Some [ {| geom_x := 1; geom_y := 2; row_h_mean := 3 |} ];
                parms := Some ∅ |}
             (Env.sample [Env.triangle]) in
  failure r = None
  /\ omap saved (trace r) = [("ATL06-SR.h5", HDF5, "pytables")]
  /\ omap loaded (trace r) = omap saved (trace r)
  /\ omap saved_table (trace r) = [[ {| geom_x := 1; geom_y := 2; row_h_mean := 3 |} ]]
  /\ gdf (names r) = Some [ {| geom_x := 1; geom_y := 2; row_h_mean := 3 |} ].
Proof.
  apply (save_load_roundtrip (Env.sample [Env.triangle])
           {| SRwidgets := Some 0; m := Some 2;
              gdf := Some [ {| geom_x := 1; geom_y := 2; row_h_mean := 3 |} ];
              parms := Some ∅ |}
           0 2 [ {| geom_x := 1; geom_y := 2; row_h_mean := 3 |} ] ∅
           (<["icesat2" :=
               VDict (<["version" := VScalar (SStr "v1.0.5")]>
                     (<["commit" := VScalar (SStr "abc123")]> ∅))]> ∅)
           (<["version" := VScalar (SStr "v1.0.5")]>
            (<["commit" := VScalar (SStr "abc123")]> ∅))
           (VScalar (SStr "v1.0.5")) (VScalar (SStr "abc123")));
    try reflexivity; by vm_compute.
Defined.

(** * Further properties of the cells *)

(** ** Running the request cell out of order, or again *)

(** X1.  The request cell run before the options cell (SRwidgets
    unbound) raises [NameError] on [SRwidgets] at once: no call is made
    and no name is assigned. *)
Theorem requests_need_widgets {World : Type}
    (handle : forall T : Type, ext T -> World -> outcome T * World)
    (g : globals) (w : World) :
  SRwidgets g = None ->
  exec handle Requests g w
  = {| trace := []; failure := Some (NameError "SRwidgets"); names := g; world := w |}.
Proof.
  destruct g as [sr mm gd pm]. simpl. intros ->. reflexivity.
Qed.

Lemma requests_need_widgets_witness :
  exec Env.handle Requests fresh (Env.sample [Env.triangle])
  = {| trace := []; failure := Some (NameError "SRwidgets"); names := fresh;
       world := Env.sample [Env.triangle] |}.
Proof. apply requests_need_widgets. reflexivity. Defined.

(** X2.  The request cell starts from a table of its own: whatever table
    [gdf] was bound to before, the cell makes the same calls, ends the same
    way and leaves the same environment; once [icesat2.__emptyframe()] has
    answered, it leaves the same names as well.  Rows of an earlier run are
    never carried over. *)
Theorem requests_start_afresh {World : Type}
    (handle : forall T : Type, ext T -> World -> outcome T * World)
    (g : globals) (t : table) (w : World) :
  let r := exec handle Requests g w in
  let r' := exec handle Requests (set_gdf t g) w in
  trace r' = trace r /\ failure r' = failure r /\ world r' = world r
  /\ (frames (trace r) <> [] -> names r' = names r).
Proof.
  destruct g as [[sr |] mm gd pm]; [| by repeat split].
  unfold exec, cell_body, cell_requests, SRwidgets_value, m_regions. simpl.
  destruct (handle _ (widget_value sr Widget.asset) w) as [[e | asset] w1]; simpl;
    [by repeat split |].
  destruct (handle _ (widget_value sr Widget.release) w1) as [[e | release] w2]; simpl;
    [by repeat split |].
  destruct (handle _ icesat2_emptyframe w2) as [[e | empty] w3]; simpl;
    [by repeat split |].
  repeat split; reflexivity.
Qed.

Lemma answers_app (tr1 tr2 : list entry) : answers (tr1 ++ tr2) = answers tr1 ++ answers tr2.
Proof. apply omap_app. Qed.

Lemma frames_app (tr1 tr2 : list entry) : frames (tr1 ++ tr2) = frames tr1 ++ frames tr2.
Proof. apply omap_app. Qed.

Lemma request_one_kept (asset release : scalar) (poly : region) (g : globals) :
  is_Some (gdf g) ->
  wp (request_one asset release poly g)
     (fun tr x => is_Some (gdf (snd x)) /\ request_kept g tr x).
Proof.
  destruct g as [[sr |] mm gd pm]; simpl; intros [frame ->];
    unfold request_one, build_parms, SRwidgets_index, SRwidgets_value, SRwidgets_selection,
      request_kept.
  2: { simpl. by repeat split. }
  do 10 (simpl; intros [e | ?]; [by repeat split |]).
  simpl. intros [e | t]; simpl; by repeat split.
Qed.

Lemma request_loop_kept (asset release : scalar) (regions : list region) :
  forall g, is_Some (gdf g) ->
  wp (for_each regions (request_one asset release) g)
     (fun tr x => is_Some (gdf (snd x)) /\ request_kept g tr x).
Proof.
  induction regions as [| poly rest IH]; intros g Hg.
  - simpl. unfold request_kept. simpl. repeat split; try done. by destruct (gdf g).
  - simpl. apply wp_bind.
    eapply wp_mono; [| by apply request_one_kept].
    intros tr1 [[e | []] g1] (Hg1 & Hf1 & Hgdf1 & Hparms1); simpl in *.
    + by repeat split.
    + eapply wp_mono; [| by apply (IH g1)].
      intros tr2 [r2 g2] (Hg2 & Hf2 & Hgdf2 & Hparms2); simpl in *.
      split; [done |]. unfold request_kept. simpl.
      rewrite frames_app, answers_app, submitted_app, Hf1, Hf2.
      split; [done |]. split.
      * rewrite Hgdf2, Hgdf1. destruct (gdf g); simpl; [| done].
        by rewrite fold_left_app.
      * rewrite Hparms2, Hparms1.
        destruct (submitted tr2) as [| d ds] eqn:Hs using rev_ind.
        -- by rewrite app_nil_r.
        -- by rewrite app_assoc, !last_snoc.
Qed.

Lemma requests_kept_wp (g : globals) : wp (cell_requests g) (requests_kept g).
Proof.
  destruct g as [[sr |] mm gd pm]; unfold cell_requests, SRwidgets_value, m_regions,
    requests_kept.
  2: { simpl. by repeat split. }
  do 3 (simpl; intros [e | ?]; [by repeat split |]).
  simpl. destruct mm as [mm |]; simpl.
  2: { split; [done |]. by intros empty [= <-]. }
  intros [e | regions]; simpl.
  { split; [done |]. by intros empty [= <-]. }
  eapply wp_mono; [| apply (request_loop_kept s s0 regions); by eexists].
  intros tr [r g'] (_ & Hf & Hgdf & Hparms); simpl in *.
  unfold frames in *. simpl. rewrite Hf.
  split; [done |]. intros empty [= <-]. by split.
Qed.

Lemma requests_kept_exec {World : Type}
    (handle : forall T : Type, ext T -> World -> outcome T * World)
    (g : globals) (w : World) :
  let r := exec handle Requests g w in
  (frames (trace r) = [] -> names r = g /\ submitted (trace r) = [])
  /\ (forall empty,
        frames (trace r) = [empty] ->
        gdf (names r) = Some (fold_left append (answers (trace r)) empty)
        /\ parms (names r) = from_option Some (parms g) (last (submitted (trace r)))).
Proof.
  apply (exec_wp handle (fun tr _ g' => requests_kept g tr (inr tt, g'))).
  eapply wp_mono; [| apply requests_kept_wp].
  by intros tr [r g'].
Qed.

(** X3.  What the request cell leaves in [gdf] and [parms], whether it
    completes or raises part-way.  If the empty frame was never answered,
    [gdf] and [parms] (and [SRwidgets] and [m]) are bound as before and no
    request was submitted.  Once it was, [gdf] is that frame with the
    tables answered so far appended in order, and [parms] is the last
    record submitted, the failing one included (its earlier binding if no
    request was submitted). *)
Theorem requests_keep_partial_results {World : Type}
    (handle : forall T : Type, ext T -> World -> outcome T * World)
    (g : globals) (w : World) :
  let r := exec handle Requests g w in
  (frames (trace r) = [] ->
   gdf (names r) = gdf g /\ parms (names r) = parms g
   /\ SRwidgets (names r) = SRwidgets g /\ m (names r) = m g
   /\ submitted (trace r) = [])
  /\ (forall empty,
        frames (trace r) = [empty] ->
        gdf (names r) = Some (fold_left append (answers (trace r)) empty)
        /\ parms (names r) = from_option Some (parms g) (last (submitted (trace r)))).
Proof.
  intros r. subst r.
  destruct (requests_kept_exec handle g w) as [Hnone Hsome].
  split; [| exact Hsome].
  intros Hf. destruct (Hnone Hf) as [-> Hs]. done.
Qed.

Lemma requests_keep_partial_results_witness :
  let r := exec Env.handle Requests Env.ready
             (Env.serving Env.picky Env.sample_version (Env.sample [Env.triangle; []])) in
  failure r = Some (Raised "RuntimeError" "empty region")
  /\ gdf (names r) = Some [ {| geom_x := -108; geom_y := 39; row_h_mean := 1500 |} ]
  /\ gdf (names r) = Some (fold_left append (answers (trace r)) [])
  /\ parms (names r) = from_option Some None (last (submitted (trace r))).
Proof.
  split; [by vm_compute |]. split; [by vm_compute |].
  apply (proj2 (requests_keep_partial_results Env.handle Env.ready
                  (Env.serving Env.picky Env.sample_version
                     (Env.sample [Env.triangle; []])))).
  by vm_compute.
Defined.

Lemma save_written {tr g g'} :
  save_run tr g g' ->
  exists frame d dv dc v c,
    gdf g = Some frame /\ parms g = Some d
    /\ dv !! "icesat2" = Some (VDict dc)
    /\ dc !! "version" = Some v /\ dc !! "commit" = Some c
    /\ versions tr = [VDict dv]
    /\ omap saved_table tr = [frame]
    /\ omap saved_parameters tr = [<["commit" := c]> (<["version" := v]> d)]
    /\ g' = set_parms (<["commit" := c]> (<["version" := v]> d)) g.
Proof.
  intros [g0 sr mm frame d dv dc v c file format regions _ _ Hf Hd Hdc Hv Hc d'].
  by exists frame, d, dv, dc, v, c.
Qed.

(** X4.  With no region drawn on the map, a completed request cell submits
    nothing, rebinds [gdf] to the empty frame and leaves [parms] as an
    earlier run bound it.  A save that then completes writes the empty
    table together with the parameters of that earlier run (and the version
    and commit of the service). *)
Theorem empty_rerun_keeps_parms {World : Type}
    (handle : forall T : Type, ext T -> World -> outcome T * World)
    (g : globals) (w w' : World) (d : gmap string value) :
  parms g = Some d ->
  failure (exec handle Requests g w) = None ->
  regions_read (trace (exec handle Requests g w)) = [[]] ->
  let r := exec handle Requests g w in
  let s := exec handle Save (names r) w' in
  exists empty,
    frames (trace r) = [empty] /\ submitted (trace r) = []
    /\ gdf (names r) = Some empty /\ parms (names r) = Some d
    /\ (failure s = None ->
        exists dv dc v c,
          versions (trace s) = [VDict dv]
          /\ dv !! "icesat2" = Some (VDict dc)
          /\ dc !! "version" = Some v /\ dc !! "commit" = Some c
          /\ omap saved_table (trace s) = [empty]
          /\ omap saved_parameters (trace s)
             = [<["commit" := c]> (<["version" := v]> d)]).
Proof.
  intros Hd Hf Hnone r s. subst r s.
  destruct (requests_run handle g w) as (Hrun & _ & _).
  destruct (Hrun Hf) as (sr & mm & asset & release & empty & regions & loop
                         & ds & ts & _ & _ & Htr & Hblks & Hnames).
  destruct (request_blocks_observed Hblks)
    as (Hflat & Hlen & Hx & Hframes & Hregions & _).
  assert (regions = []) as ->.
  { rewrite Htr in Hnone. unfold regions_read in *.
    rewrite omap_app, Hregions in Hnone. simpl in Hnone. congruence. }
  apply Forall2_nil_inv_l in Hflat as ->. destruct ts; [| done].
  inversion Hblks; subst. rewrite Htr, Hnames, Hd. simpl.
  exists empty. repeat (split; [done |]).
  intros Hs. apply save_completed in Hs.
  destruct (save_written Hs) as (frame & d0 & dv & dc & v & c & Hg0 & Hd0 & Hdc & Hv & Hc
                                 & Hver & Htab & Hpar & _).
  exists dv, dc, v, c. simpl in Hg0, Hd0.
  assert (frame = empty) as -> by congruence.
  assert (d0 = d) as -> by congruence.
  by repeat split.
Qed.

Lemma empty_rerun_keeps_parms_witness :
  let g := {| SRwidgets := Some 0; m := Some 2; gdf := Some [];
              parms := Some (<["srt" := VScalar (SInt 3)]> ∅) |} in
  let r := exec Env.handle Requests g (Env.sample []) in
  let s := exec Env.handle Save (names r) (world r) in
  exists empty,
    frames (trace r) = [empty] /\ submitted (trace r) = []
    /\ gdf (names r) = Some empty
    /\ parms (names r) = Some (<["srt" := VScalar (SInt 3)]> ∅)
    /\ (failure s = None ->
        exists dv dc v c,
          versions (trace s) = [VDict dv]
          /\ dv !! "icesat2" = Some (VDict dc)
          /\ dc !! "version" = Some v /\ dc !! "commit" = Some c
          /\ omap saved_table (trace s) = [empty]
          /\ omap saved_parameters (trace s)
             = [<["commit" := c]> (<["version" := v]> (<["srt" := VScalar (SInt 3)]> ∅))]).
Proof.
  intros g.
  apply (empty_rerun_keeps_parms Env.handle g (Env.sample [])); by vm_compute.
Defined.

Lemma request_block_targets {sr asset release poly blk d t} :
  request_block sr asset release poly blk d t ->
  omap destination blk = [(asset, release)]
  /\ omap (widget_answer Widget.asset) blk = []
  /\ omap (widget_answer Widget.release) blk = []
  /\ (forall x, x ∈ per_region -> length (omap (widget_answer x) blk) = 1).
Proof.
  intros []. repeat split.
  intros x Hx. unfold per_region in Hx.
  repeat (apply elem_of_cons in Hx as [-> | Hx]; [reflexivity |]).
  by apply elem_of_nil in Hx.
Qed.

Lemma request_blocks_targets {sr asset release regions tr ds ts} :
  request_blocks sr asset release regions tr ds ts ->
  omap destination tr = replicate (length regions) (asset, release)
  /\ omap (widget_answer Widget.asset) tr = []
  /\ omap (widget_answer Widget.release) tr = []
  /\ (forall x, x ∈ per_region -> length (omap (widget_answer x) tr) = length regions).
Proof.
  induction 1 as [| poly rest blk d t tr ds ts Hblk Hrest (IH1 & IH2 & IH3 & IH4)];
    [done |].
  destruct (request_block_targets Hblk) as (H1 & H2 & H3 & H4).
  rewrite !omap_app, H1, H2, H3, IH1, IH2, IH3. repeat split.
  intros x Hx. rewrite omap_app, length_app, (H4 x Hx), (IH4 x Hx). done.
Qed.

(** X5.  In a completed request cell the asset and the release are read
    once each, before the loop; every request is sent for that one pair,
    one request per region of [m.regions]; and each of the eight widgets
    read through [.value] inside the loop is read once per region. *)
Theorem requests_share_destination {World : Type}
    (handle : forall T : Type, ext T -> World -> outcome T * World)
    (g : globals) (w : World) :
  failure (exec handle Requests g w) = None ->
  let tr := trace (exec handle Requests g w) in
  exists asset release regions,
    omap (widget_answer Widget.asset) tr = [asset]
    /\ omap (widget_answer Widget.release) tr = [release]
    /\ regions_read tr = [regions]
    /\ omap destination tr = replicate (length regions) (asset, release)
    /\ (forall x, x ∈ per_region -> length (omap (widget_answer x) tr) = length regions).
Proof.
  intros Hf tr. subst tr.
  destruct (requests_run handle g w) as (Hrun & _ & _).
  destruct (Hrun Hf) as (sr & mm & asset & release & empty & regions & loop
                         & ds & ts & _ & _ & Htr & Hblks & _).
  destruct (request_blocks_observed Hblks) as (_ & _ & _ & _ & Hregions & _).
  destruct (request_blocks_targets Hblks) as (H1 & H2 & H3 & H4).
  exists asset, release, regions. rewrite Htr. unfold regions_read in *.
  rewrite !omap_app, H1, H2, H3, Hregions. repeat split.
  intros x Hx. rewrite omap_app, length_app, (H4 x Hx).
  unfold per_region in Hx.
  repeat (apply elem_of_cons in Hx as [-> | Hx]; [reflexivity |]).
  by apply elem_of_nil in Hx.
Qed.

Lemma requests_share_destination_witness :
  let tr := trace (exec Env.handle Requests Env.ready
                     (Env.sample [Env.triangle; Env.triangle])) in
  exists asset release regions,
    omap (widget_answer Widget.asset) tr = [asset]
    /\ omap (widget_answer Widget.release) tr = [release]
    /\ regions_read tr = [regions]
    /\ omap destination tr = replicate (length regions) (asset, release)
    /\ (forall x, x ∈ per_region -> length (omap (widget_answer x) tr) = length regions).
Proof.
  apply (requests_share_destination Env.handle Env.ready
           (Env.sample [Env.triangle; Env.triangle])).
  by vm_compute.
Defined.

(** X6.  A completed save cell changes the record bound to [parms] at the
    keys ["version"] and ["commit"] only: the record written to the file
    and bound to [parms] afterwards has the keys of the old one and these
    two, every other key keeps its value, and the other names keep their
    bindings. *)
Theorem save_adds_two_keys {World : Type}
    (handle : forall T : Type, ext T -> World -> outcome T * World)
    (g : globals) (w : World) :
  failure (exec handle Save g w) = None ->
  let r := exec handle Save g w in
  exists d d',
    parms g = Some d /\ parms (names r) = Some d'
    /\ omap saved_parameters (trace r) = [d']
    /\ dom d' = {["commit"]} ∪ ({["version"]} ∪ dom d)
    /\ (forall key, key <> "version" -> key <> "commit" -> d' !! key = d !! key)
    /\ SRwidgets (names r) = SRwidgets g /\ m (names r) = m g
    /\ gdf (names r) = gdf g.
Proof.
  intros Hf r. subst r. apply save_completed in Hf.
  destruct (save_written Hf) as (frame & d & dv & dc & v & c & Hg & Hd & Hdc & Hv & Hc
                                 & Hver & Htab & Hpar & Hnames).
  exists d, (<["commit" := c]> (<["version" := v]> d)).
  rewrite Hnames. repeat (split; [done |]). split; [| split; [| done]].
  - by rewrite !dom_insert_L.
  - intros key Hv' Hc'. by rewrite !lookup_insert_ne.
Qed.

Lemma save_adds_two_keys_witness :
  let g := {| SRwidgets := Some 0; m := Some 2; gdf := Some [];
              parms := Some (<["srt" := VScalar (SInt 3)]> ∅) |} in
  let r := exec Env.handle Save g (Env.sample [Env.triangle]) in
  exists d d' : gmap string value,
    parms g = Some d /\ parms (names r) = Some d'
    /\ omap saved_parameters (trace r) = [d']
    /\ dom d' = {["commit"]} ∪ ({["version"]} ∪ dom d)
    /\ (forall key, key <> "version" -> key <> "commit" -> d' !! key = d !! key)
    /\ SRwidgets (names r) = SRwidgets g /\ m (names r) = m g
    /\ gdf (names r) = gdf g.
Proof.
  intros g.
  apply (save_adds_two_keys Env.handle g (Env.sample [Env.triangle])).
  by vm_compute.
Defined.

(** X7.  Saving twice: the second save overwrites the ["version"] and
    ["commit"] the first one left in [parms] with what the service answers
    the second time; the record it writes is the original one with the
    second answer's two fields, nothing of the first answer remains. *)
Theorem save_again_overrides_version {World : Type}
    (handle : forall T : Type, ext T -> World -> outcome T * World)
    (g : globals) (w w' : World) (d : gmap string value) :
  parms g = Some d ->
  failure (exec handle Save g w) = None ->
  failure (exec handle Save (names (exec handle Save g w)) w') = None ->
  let s := exec handle Save (names (exec handle Save g w)) w' in
  exists dv dc v c,
    versions (trace s) = [VDict dv]
    /\ dv !! "icesat2" = Some (VDict dc)
    /\ dc !! "version" = Some v /\ dc !! "commit" = Some c
    /\ omap saved_parameters (trace s) = [<["commit" := c]> (<["version" := v]> d)]
    /\ parms (names s) = Some (<["commit" := c]> (<["version" := v]> d)).
Proof.
  intros Hd Hf1 Hf2 s. subst s.
  apply save_completed in Hf1. apply save_completed in Hf2.
  destruct (save_written Hf1) as (frame1 & d1 & dv1 & dc1 & v1 & c1 & _ & Hd1 & _ & _ & _
                                  & _ & _ & _ & Hnames1).
  destruct (save_written Hf2) as (frame2 & d2 & dv & dc & v & c & _ & Hd2 & Hdc & Hv & Hc
                                  & Hver & _ & Hpar & Hnames2).
  assert (d1 = d) as -> by congruence.
  rewrite Hnames1 in Hd2. simpl in Hd2. injection Hd2 as <-.
  exists dv, dc, v, c. rewrite Hnames2, Hpar. simpl.
  assert (Heq : <["commit" := c]> (<["version" := v]>
                  (<["commit" := c1]> (<["version" := v1]> d)))
                = <["commit" := c]> (<["version" := v]> d)).
  { rewrite (insert_insert_ne _ "version" "commit") by done.
    by rewrite insert_insert_eq, insert_insert_eq. }
  rewrite Heq. by repeat split.
Qed.

Lemma save_again_overrides_version_witness :
  let g := {| SRwidgets := Some 0; m := Some 2; gdf := Some [];
              parms := Some (<["srt" := VScalar (SInt 3)]> ∅) |} in
  let w := Env.sample [Env.triangle] in
  let w' := Env.serving Env.sample_service
              (VDict (<["icesat2" :=
                         VDict (<["version" := VScalar (SStr "v2.0.0")]>
                               (<["commit" := VScalar (SStr "def456")]> ∅))]> ∅)) w in
  let s := exec Env.handle Save (names (exec Env.handle Save g w)) w' in
  exists dv dc v c,
    versions (trace s) = [VDict dv]
    /\ dv !! "icesat2" = Some (VDict dc)
    /\ dc !! "version" = Some v /\ dc !! "commit" = Some c
    /\ omap saved_parameters (trace s)
       = [<["commit" := c]> (<["version" := v]> (<["srt" := VScalar (SInt 3)]> ∅))]
    /\ parms (names s)
       = Some (<["commit" := c]> (<["version" := v]> (<["srt" := VScalar (SInt 3)]> ∅))).
Proof.
  intros g w w'.
  apply (save_again_overrides_version Env.handle g w w'
           (<["srt" := VScalar (SInt 3)]> ∅)); by vm_compute.
Defined.

Lemma save_uncommitted_wp (g : globals) (d : gmap string value) :
  parms g = Some d ->
  wp (cell_save g)
     (fun tr x =>
        forall dv dc v,
          versions tr = [VDict dv] -> dv !! "icesat2" = Some (VDict dc) ->
          dc !! "version" = Some v -> dc !! "commit" = None ->
          fst x = inl (KeyError "commit")
          /\ parms (snd x) = Some (<["version" := v]> d)
          /\ omap saved tr = []).
Proof.
  destruct g as [[sr |] [mm |] [gd |] pm]; simpl; intros ->.
  all: unfold cell_save, parms_setitem, SRwidgets_file, SRwidgets_format, m_regions.
  all: run_cell.
  all: cbn; intros dv' dc' v' Hver Hdc Hv Hc; simplify_eq/=; try done.
Qed.

(** X8.  A version answer without a ["commit"] field: the save cell raises
    [KeyError "commit"] after it has stored ["version"] in [parms], so the
    record stays changed although no file was written. *)
Theorem save_without_commit {World : Type}
    (handle : forall T : Type, ext T -> World -> outcome T * World)
    (g : globals) (w : World) (d dv dc : gmap string value) (v : value) :
  parms g = Some d ->
  versions (trace (exec handle Save g w)) = [VDict dv] ->
  dv !! "icesat2" = Some (VDict dc) ->
  dc !! "version" = Some v -> dc !! "commit" = None ->
  failure (exec handle Save g w) = Some (KeyError "commit")
  /\ parms (names (exec handle Save g w)) = Some (<["version" := v]> d)
  /\ omap saved (trace (exec handle Save g w)) = [].
Proof.
  intros Hd. revert dv dc v.
  apply (exec_wp handle (fun tr o g' =>
    forall dv dc v,
      versions tr = [VDict dv] -> dv !! "icesat2" = Some (VDict dc) ->
      dc !! "version" = Some v -> dc !! "commit" = None ->
      o = Some (KeyError "commit")
      /\ parms g' = Some (<["version" := v]> d) /\ omap saved tr = [])).
  eapply wp_mono; [| by apply save_uncommitted_wp].
  intros tr [r g'] H dv dc v Hver Hdc Hv Hc. simpl in *.
  destruct (H dv dc v Hver Hdc Hv Hc) as (-> & Hp & Hs). by repeat split.
Qed.

Lemma save_without_commit_witness :
  let g := {| SRwidgets := Some 0; m := Some 2; gdf := Some [];
              parms := Some (<["srt" := VScalar (SInt 3)]> ∅) |} in
  let w := Env.serving Env.sample_service Env.uncommitted (Env.sample [Env.triangle]) in
  failure (exec Env.handle Save g w) = Some (KeyError "commit")
  /\ parms (names (exec Env.handle Save g w))
     = Some (<["version" := VScalar (SStr "v1.0.5")]> (<["srt" := VScalar (SInt 3)]> ∅))
  /\ omap saved (trace (exec Env.handle Save g w)) = [].
Proof.
  intros g w.
  apply (save_without_commit Env.handle g w (<["srt" := VScalar (SInt 3)]> ∅)
           (<["icesat2" := VDict (<["version" := VScalar (SStr "v1.0.5")]> ∅)]> ∅)
           (<["version" := VScalar (SStr "v1.0.5")]> ∅)
           (VScalar (SStr "v1.0.5"))); by vm_compute.
Defined.

(** ** The load cell *)

Lemma load_failed_wp (g : globals) :
  wp (cell_load g)
     (fun tr x => forall e, fst x = inl e -> snd x = g /\ omap loaded_table tr = []).
Proof.
  destruct g as [[sr |] mm gd pm]; unfold cell_load, SRwidgets_file, SRwidgets_format.
  - do 3 (simpl; intros [e | ?]; [done |]). simpl. done.
  - simpl. done.
Qed.

Lemma load_observed {tr g g'} :
  load_run tr g g' ->
  exists frame file format,
    omap loaded_table tr = [frame] /\ omap loaded tr = [(file, format, "pytables")]
    /\ g' = set_gdf frame g.
Proof. intros [g0 sr file format frame _]. by exists frame, file, format. Qed.

(** X9.  The load cell rebinds [gdf] and nothing else.  If it raises, no
    table was read and [gdf] keeps the earlier table (as [SRwidgets], [m]
    and [parms] keep their bindings); if it completes, exactly one table
    was read from the file, [gdf] is bound to it and the other three names
    keep their bindings. *)
Theorem load_rebinds_gdf_only {World : Type}
    (handle : forall T : Type, ext T -> World -> outcome T * World)
    (g : globals) (w : World) :
  let r := exec handle Load g w in
  (failure r <> None ->
   omap loaded_table (trace r) = []
   /\ gdf (names r) = gdf g /\ SRwidgets (names r) = SRwidgets g
   /\ m (names r) = m g /\ parms (names r) = parms g)
  /\ (failure r = None ->
      exists frame,
        omap loaded_table (trace r) = [frame]
        /\ gdf (names r) = Some frame
        /\ SRwidgets (names r) = SRwidgets g /\ m (names r) = m g
        /\ parms (names r) = parms g).
Proof.
  intros r. subst r. split.
  - apply (exec_wp handle (fun tr o g' =>
      o <> None ->
      omap loaded_table tr = []
      /\ gdf g' = gdf g /\ SRwidgets g' = SRwidgets g /\ m g' = m g
      /\ parms g' = parms g)).
    eapply wp_mono; [| apply load_failed_wp].
    intros tr [[e | []] g'] H; simpl in *; [| done].
    intros _. destruct (H e eq_refl) as [-> Ht]. done.
  - intros Hf. apply load_completed in Hf.
    destruct (load_observed Hf) as (frame & file & format & Ht & _ & ->).
    by exists frame.
Qed.

Lemma load_rebinds_gdf_only_witness :
  let g := {| SRwidgets := Some 0; m := Some 2;
              gdf := Some [ {| geom_x := 1; geom_y := 2; row_h_mean := 3 |} ];
              parms := None |} in
  let r := exec Env.handle Load g (Env.sample [Env.triangle]) in
  omap loaded_table (trace r) = []
  /\ gdf (names r) = gdf g /\ SRwidgets (names r) = SRwidgets g
  /\ m (names r) = m g /\ parms (names r) = parms g.
Proof.
  intros g.
  apply (proj1 (load_rebinds_gdf_only Env.handle g (Env.sample [Env.triangle]))).
  by vm_compute.
Defined.

(** ** Cells that leave the results alone *)

Lemma exec_assigns_nothing {World : Type}
    (handle : forall T : Type, ext T -> World -> outcome T * World)
    (c : cell) (g : globals) (w : World) :
  (forall upd, ~ writes c upd) -> names (exec handle c g w) = g.
Proof.
  intros Hc.
  apply (exec_straight handle (fun _ _ g0 g1 => g1 = g0)).
  split; try done.
  - intros upd g0 Hupd. by destruct (Hc upd).
  - intros _ _ _ g0 g1 g2 -> ->. done.
Qed.

(** X10.  The import cell, the plotting cell and the two cells that
    display a file chooser leave the results alone: whatever their calls
    answer and however they end, [gdf] and [parms] are bound afterwards as
    before, and so are [SRwidgets] and [m].  (The plotting cell binds
    names of its own, such as [f1] and [ax1], and the import cell the
    module names; none of them is one of these four.) *)
Theorem display_cells_keep_results {World : Type}
    (handle : forall T : Type, ext T -> World -> outcome T * World)
    (c : cell) (g : globals) (w : World) :
  c ∈ [Imports; Plots; FileSaver; FileLoader] ->
  let r := exec handle c g w in
  gdf (names r) = gdf g /\ parms (names r) = parms g
  /\ SRwidgets (names r) = SRwidgets g /\ m (names r) = m g.
Proof.
  intros Hc r. subst r.
  rewrite (exec_assigns_nothing handle c g w); [done |].
  intros upd Hupd.
  repeat (apply elem_of_cons in Hc as [-> | Hc]; [by inversion Hupd |]).
  by apply elem_of_nil in Hc.
Qed.

Lemma display_cells_keep_results_witness :
  let g := {| SRwidgets := Some 0; m := Some 2;
              gdf := Some [ {| geom_x := 1; geom_y := 2; row_h_mean := 3 |} ];
              parms := Some (<["srt" := VScalar (SInt 3)]> ∅) |} in
  let r := exec Env.handle Plots g (Env.sample [Env.triangle]) in
  gdf (names r) = gdf g /\ parms (names r) = parms g
  /\ SRwidgets (names r) = SRwidgets g /\ m (names r) = m g.
Proof.
  intros g. apply (display_cells_keep_results Env.handle Plots g (Env.sample [Env.triangle])).
  right. left.
Defined.

(** ** The plotting cell without a table *)

Lemma plots_unbound_wp (g : globals) :
  gdf g = None ->
  wp (cell_plots g)
     (fun tr x =>
        fst x <> inr tt /\ omap scattered tr = [] /\ omap dotted tr = []).
Proof.
  destruct g as [sr mm gd pm]. simpl. intros ->.
  unfold cell_plots, plot_ground_tracks, PlateCarree.
  do 2 (simpl; intros [e | ?]; [done |]).
  simpl. done.
Qed.

(** X11.  Plotting before any table exists: with [gdf] unbound the
    plotting cell never completes, whatever its calls answer, and it draws
    no point, neither on the map of ground tracks nor as a scatter of
    heights. *)
Theorem plots_need_table {World : Type}
    (handle : forall T : Type, ext T -> World -> outcome T * World)
    (g : globals) (w : World) :
  gdf g = None ->
  let r := exec handle Plots g w in
  failure r <> None
  /\ omap scattered (trace r) = [] /\ omap dotted (trace r) = [].
Proof.
  intros Hg.
  apply (exec_wp handle (fun tr o g' =>
    o <> None /\ omap scattered tr = [] /\ omap dotted tr = [])).
  eapply wp_mono; [| by apply plots_unbound_wp].
  intros tr [[e | []] g'] (H1 & H2 & H3); simpl in *; done.
Qed.

Lemma plots_need_table_witness :
  let r := exec Env.handle Plots Env.ready (Env.sample [Env.triangle]) in
  failure r <> None
  /\ omap scattered (trace r) = [] /\ omap dotted (trace r) = [].
Proof.
  apply (plots_need_table Env.handle Env.ready (Env.sample [Env.triangle])).
  reflexivity.
Defined.

(** ** The options and map cells *)

Lemma options_observed {tr g g'} :
  options_run tr g g' ->
  exists sr, omap widgets_created tr = [sr] /\ g' = set_SRwidgets sr g.
Proof. intros [g0 sr box]. by exists sr. Qed.

(** X12.  Running the options cell again replaces the widgets and keeps
    the results: when the cell completes, it has created one widgets
    object and [SRwidgets] is bound to that new object, while [m], [gdf]
    and [parms] keep their bindings. *)
Theorem options_rebind_widgets {World : Type}
    (handle : forall T : Type, ext T -> World -> outcome T * World)
    (g : globals) (w : World) :
  failure (exec handle Options g w) = None ->
  let r := exec handle Options g w in
  exists sr,
    omap widgets_created (trace r) = [sr]
    /\ SRwidgets (names r) = Some sr
    /\ m (names r) = m g /\ gdf (names r) = gdf g /\ parms (names r) = parms g.
Proof.
  intros Hf r. subst r. apply options_completed in Hf.
  destruct (options_observed Hf) as (sr & Hc & ->). by exists sr.
Qed.

Lemma options_rebind_widgets_witness :
  let g := {| SRwidgets := Some 0; m := Some 2; gdf := Some [];
              parms := Some (<["srt" := VScalar (SInt 3)]> ∅) |} in
  let r := exec Env.handle Options g (Env.sample [Env.triangle]) in
  exists sr,
    omap widgets_created (trace r) = [sr]
    /\ SRwidgets (names r) = Some sr
    /\ m (names r) = m g /\ gdf (names r) = gdf g /\ parms (names r) = parms g.
Proof.
  intros g. apply (options_rebind_widgets Env.handle g (Env.sample [Env.triangle])).
  by vm_compute.
Defined.

Lemma map_observed {tr g g'} :
  map_run tr g g' ->
  exists proj mm,
    omap (widget_answer Widget.projection) tr = [proj]
    /\ omap map_created tr = [(proj, mm)] /\ g' = set_m mm g.
Proof. intros [g0 sr proj mm _]. by exists proj, mm. Qed.

(** X13.  When the map cell completes, it has read the projection widget
    once and created one map, for the projection just read; [m] is bound
    to that map and [SRwidgets], [gdf] and [parms] keep their bindings. *)
Theorem map_follows_projection {World : Type}
    (handle : forall T : Type, ext T -> World -> outcome T * World)
    (g : globals) (w : World) :
  failure (exec handle RegionMap g w) = None ->
  let r := exec handle RegionMap g w in
  exists proj mm,
    omap (widget_answer Widget.projection) (trace r) = [proj]
    /\ omap map_created (trace r) = [(proj, mm)]
    /\ m (names r) = Some mm
    /\ SRwidgets (names r) = SRwidgets g /\ gdf (names r) = gdf g
    /\ parms (names r) = parms g.
Proof.
  intros Hf r. subst r. apply map_completed in Hf.
  destruct (map_observed Hf) as (proj & mm & H1 & H2 & ->). by exists proj, mm.
Qed.

Lemma map_follows_projection_witness :
  let g := {| SRwidgets := Some 0; m := None; gdf := None; parms := None |} in
  let r := exec Env.handle RegionMap g (Env.sample [Env.triangle]) in
  exists proj mm,
    omap (widget_answer Widget.projection) (trace r) = [proj]
    /\ omap map_created (trace r) = [(proj, mm)]
    /\ m (names r) = Some mm
    /\ SRwidgets (names r) = SRwidgets g /\ gdf (names r) = gdf g
    /\ parms (names r) = parms g.
Proof.
  intros g. apply (map_follows_projection Env.handle g (Env.sample [Env.triangle])).
  by vm_compute.
Defined.

(** ** Which cell makes which call *)

Lemma save_once_wp (g : globals) :
  wp (cell_save g) (fun tr _ => length (omap saved tr) <= 1).
Proof.
  destruct g as [[sr |] [mm |] [gd |] [d |]];
    unfold cell_save, parms_setitem, SRwidgets_file, SRwidgets_format, m_regions;
    run_cell.
  all: simpl; lia.
Qed.

Lemma load_once_wp (g : globals) :
  wp (cell_load g) (fun tr _ => length (omap loaded tr) <= 1).
Proof.
  destruct g as [[sr |] mm gd pm]; unfold cell_load, SRwidgets_file, SRwidgets_format.
  - do 3 (simpl; intros [e | ?]; [simpl; lia |]). simpl. lia.
  - simpl. lia.
Qed.

(** X14.  Which cell talks to what: only the request cell submits
    requests, only the save cell asks the service for its version and
    writes a file, only the load cell reads a file, only the options cell
    creates widgets and only the map cell creates a map; and a cell writes
    at most one file and reads at most one, however it ends. *)
Theorem cells_keep_to_their_calls {World : Type}
    (handle : forall T : Type, ext T -> World -> outcome T * World)
    (c : cell) (g : globals) (w : World) :
  let tr := trace (exec handle c g w) in
  (c <> Requests -> submitted tr = [])
  /\ (c <> Save -> omap saved tr = [] /\ versions tr = [])
  /\ (c <> Load -> omap loaded tr = [])
  /\ (c <> Options -> omap widgets_created tr = [])
  /\ (c <> RegionMap -> omap map_created tr = [])
  /\ length (omap saved tr) <= 1 /\ length (omap loaded tr) <= 1.
Proof.
  intros tr. subst tr. repeat split.
  - apply submitted_elsewhere.
  - destruct c; try done; unobserved.
  - destruct c; try done; unobserved.
  - intros Hc. destruct c; try done; unobserved.
  - intros Hc. destruct c; try done; unobserved.
  - intros Hc. destruct c; try done; unobserved.
  - destruct (decide (c = Save)) as [-> | Hc].
    + apply (exec_wp handle (fun tr _ _ => length (omap saved tr) <= 1)).
      apply save_once_wp.
    + assert (omap saved (trace (exec handle c g w)) = []) as ->; [| simpl; lia].
      destruct c; try done; unobserved.
  - destruct (decide (c = Load)) as [-> | Hc].
    + apply (exec_wp handle (fun tr _ _ => length (omap loaded tr) <= 1)).
      apply load_once_wp.
    + assert (omap loaded (trace (exec handle c g w)) = []) as ->; [| simpl; lia].
      destruct c; try done; unobserved.
Qed.
